(** * Circular inversion animation: the geometry kernel and the scene wiring

    A shallow embedding of [Inversions.py].  The Python code computes with
    numpy [float64] scalars and arrays of shape [(3,)].  Every function of
    the source is written once, over an interface of scalar operations,
    and then read at two instances:

    - [R], the exact arithmetic in which the closed formulas of the kernel
      are stated;
    - [float], IEEE 754 binary64 as the machine evaluates it, where a
      division by zero yields an infinity or a NaN instead of failing. *)

From Stdlib Require Import Reals Lra Lia ZArith List Bool.
From Stdlib Require Floats Uint63.
Import ListNotations.

Set Implicit Arguments.

(** ** Scalars *)

(** The operations the source applies to numbers: literals, the four
    arithmetic operations, the unary minus, the square root (in
    [linalg.norm] and as [** 0.5]) and the comparison [<] behind Python's
    [min] and [max]. *)
Class Scalar (T : Type) : Type := {
  of_Z : Z -> T;
  sadd : T -> T -> T;
  ssub : T -> T -> T;
  sopp : T -> T;
  smul : T -> T -> T;
  sdiv : T -> T -> T;
  ssqrt : T -> T;
  sltb : T -> T -> bool
}.

(** [math.atan2] and [ma.PI], used by the scene only. *)
Class Trig (T : Type) : Type := {
  arctan2 : T -> T -> T;
  pi : T
}.

Declare Scope scalar_scope.
Delimit Scope scalar_scope with S.
Infix "+" := sadd : scalar_scope.
Infix "-" := ssub : scalar_scope.
Infix "*" := smul : scalar_scope.
Infix "/" := sdiv : scalar_scope.
Notation "- x" := (sopp x) : scalar_scope.

(** ** Arrays of shape (3,) *)

Record Vec3 (T : Type) : Type := mkVec3 { vx : T; vy : T; vz : T }.

Section Kernel.
Context {T : Type} `{Scalar T}.
Local Open Scope scalar_scope.

(** [x ** 2] *)
Definition sq (x : T) : T := x * x.

(** [a + b], [a - b] and [k * a] on arrays, elementwise. *)
Definition vadd (a b : Vec3 T) : Vec3 T :=
  mkVec3 (vx a + vx b) (vy a + vy b) (vz a + vz b).
Definition vsub (a b : Vec3 T) : Vec3 T :=
  mkVec3 (vx a - vx b) (vy a - vy b) (vz a - vz b).
Definition vscale (k : T) (a : Vec3 T) : Vec3 T :=
  mkVec3 (k * vx a) (k * vy a) (k * vz a).

(** [linalg.norm]: the square root of the dot product of the array with
    itself. *)
Definition norm (a : Vec3 T) : T :=
  ssqrt (vx a * vx a + vy a * vy a + vz a * vz a).

(** Python's two-argument [min(a, b)]: [b] replaces [a] only when
    [b < a]. *)
Definition py_min (a b : T) : T := if sltb b a then b else a.

(** Python's [max(a, b, key=key)]: [b] replaces [a] only when
    [key a < key b], so the first argument wins a tie. *)
Definition py_max_by {A : Type} (key : A -> T) (a b : A) : A :=
  if sltb (key a) (key b) then b else a.

(** *** MathUtils *)

(** [MathUtils.distance] *)
Definition distance (a b : Vec3 T) : T := norm (vsub a b).

(** The literal that caps the scale factor. *)
Definition scale_cap : Z := 9223372036854775807.

(** The scale factor of [circ_inverse_of] before and after the cap. *)
Definition raw_scale (p c : Vec3 T) (r : T) : T :=
  let adj_direction := vsub p c in
  let p_norm := norm adj_direction in
  let prim_norm := sq r / p_norm in
  prim_norm / p_norm.

Definition capped_scale (p c : Vec3 T) (r : T) : T :=
  py_min (raw_scale p c r) (of_Z scale_cap).

(** [MathUtils.circ_inverse_of] *)
Definition circ_inverse_of (p c : Vec3 T) (r : T) : Vec3 T :=
  let adj_direction := vsub p c in
  let p_norm := norm adj_direction in
  let prim_norm := sq r / p_norm in
  let scale := prim_norm / p_norm in
  let scale := py_min scale (of_Z scale_cap) in
  vadd c (vscale scale adj_direction).

(** The squared side lengths [(a, b, c)] of [define_circle]. *)
Definition sides2 (p1 p2 p3 : Vec3 T) : T * T * T :=
  let x1 := vx p1 in let y1 := vy p1 in
  let x2 := vx p2 in let y2 := vy p2 in
  let x3 := vx p3 in let y3 := vy p3 in
  let c := sq (x1 - x2) + sq (y1 - y2) in
  let a := sq (x2 - x3) + sq (y2 - y3) in
  let b := sq (x3 - x1) + sq (y3 - y1) in
  (a, b, c).

(** The denominator [s] of [define_circle]. *)
Definition circle_denominator (p1 p2 p3 : Vec3 T) : T :=
  let '(a, b, c) := sides2 p1 p2 p3 in
  of_Z 2 * (a * b + b * c + c * a) - (a * a + b * b + c * c).

(** [MathUtils.define_circle] *)
Definition define_circle (p1 p2 p3 : Vec3 T) : Vec3 T * T :=
  let x1 := vx p1 in let y1 := vy p1 in
  let x2 := vx p2 in let y2 := vy p2 in
  let x3 := vx p3 in let y3 := vy p3 in
  let c := sq (x1 - x2) + sq (y1 - y2) in
  let a := sq (x2 - x3) + sq (y2 - y3) in
  let b := sq (x3 - x1) + sq (y3 - y1) in
  let s := of_Z 2 * (a * b + b * c + c * a) - (a * a + b * b + c * c) in
  let px := (a * (b + c - a) * x1 + b * (c + a - b) * x2
             + c * (a + b - c) * x3) / s in
  let py := (a * (b + c - a) * y1 + b * (c + a - b) * y2
             + c * (a + b - c) * y3) / s in
  let ar := ssqrt a in
  let br := ssqrt b in
  let cr := ssqrt c in
  let r := ar * br * cr
           / ssqrt ((ar + br + cr) * (- ar + br + cr)
                   * (ar - br + cr) * (ar + br - cr)) in
  (mkVec3 px py (of_Z 0), r).

(** [MathUtils.circle_angle] *)
Definition circle_angle `{Trig T} (p center : Vec3 T) : T :=
  arctan2 (vy p - vy center) (vx p - vx center).
End Kernel.

(** ** The scene *)

(** The drawables the scene hands to the animation host, each by the
    arguments of its constructor. *)
Record Arc (T : Type) : Type := mkArc {
  arc_radius : T;
  arc_center : Vec3 T;
  start_angle : T;
  angle : T
}.

Record Circle (T : Type) : Type := mkCircle {
  circle_center : Vec3 T;
  circle_radius : T
}.

Inductive Mobject (T : Type) : Type :=
| MArc (a : Arc T)
| MCircle (c : Circle T).

(** The two dots a connector line can end at. *)
Inductive Dot : Type := DotA | DotA_prime.

Record Line (T : Type) : Type := mkLine {
  line_start : Vec3 T;
  line_end : Dot
}.

(** The attributes of [CircularInversionIntro] that the updaters and
    [trace_circle] read and write.  Dots are kept by their centres;
    [arc_updater] holds the [(center, radius)] captured by the closure
    [inverted_arc_updater] while it is attached to [inverted_arc]. *)
Record Scene (T : Type) : Type := mkScene {
  RADIUS : T;
  origin : Vec3 T;
  A : Vec3 T;
  A_prime : Vec3 T;
  line : Line T;
  circle : option (Circle T);
  inverted_arc : option (Mobject T);
  arc_updater : option (Vec3 T * T)
}.

Section SceneCode.
Context {T : Type} `{Scalar T} `{Trig T}.
Local Open Scope scalar_scope.

(** [ma.ORIGIN], [ma.RIGHT], [ma.UP], [ma.DOWN] *)
Definition ORIGIN : Vec3 T := mkVec3 (of_Z 0) (of_Z 0) (of_Z 0).
Definition RIGHT : Vec3 T := mkVec3 (of_Z 1) (of_Z 0) (of_Z 0).
Definition UP : Vec3 T := mkVec3 (of_Z 0) (of_Z 1) (of_Z 0).
Definition DOWN : Vec3 T := mkVec3 (of_Z 0) (of_Z (-1)) (of_Z 0).

(** [ma.Circle(radius=r).shift(u, v)]: a circle created at the origin and
    moved by the sum of the two vectors. *)
Definition shifted_circle (r : T) (u v : Vec3 T) : Circle T :=
  mkCircle (vadd ORIGIN (vadd u v)) r.

(** [x["dot"].get_center()] *)
Definition dot_center (st : Scene T) (d : Dot) : Vec3 T :=
  match d with DotA => A st | DotA_prime => A_prime st end.

(** Assignments to one attribute of the scene. *)
Definition set_A (a : Vec3 T) (st : Scene T) : Scene T :=
  mkScene (RADIUS st) (origin st) a (A_prime st) (line st) (circle st)
          (inverted_arc st) (arc_updater st).
Definition set_A_prime (a : Vec3 T) (st : Scene T) : Scene T :=
  mkScene (RADIUS st) (origin st) (A st) a (line st) (circle st)
          (inverted_arc st) (arc_updater st).
Definition set_line (l : Line T) (st : Scene T) : Scene T :=
  mkScene (RADIUS st) (origin st) (A st) (A_prime st) l (circle st)
          (inverted_arc st) (arc_updater st).
Definition set_circle (c : Circle T) (st : Scene T) : Scene T :=
  mkScene (RADIUS st) (origin st) (A st) (A_prime st) (line st) (Some c)
          (inverted_arc st) (arc_updater st).
Definition set_inverted_arc (m : Mobject T) (st : Scene T) : Scene T :=
  mkScene (RADIUS st) (origin st) (A st) (A_prime st) (line st) (circle st)
          (Some m) (arc_updater st).
Definition set_arc_updater (u : option (Vec3 T * T)) (st : Scene T)
    : Scene T :=
  mkScene (RADIUS st) (origin st) (A st) (A_prime st) (line st) (circle st)
          (inverted_arc st) u.

(** [setup]: the attributes before any animation is played. *)
Definition setup : Scene T :=
  mkScene (of_Z 2) ORIGIN (mkVec3 (of_Z 1) (of_Z 0) (of_Z 0)) ORIGIN
          (mkLine ORIGIN DotA_prime) None None None.

(** The first updater of [add_updaters]: the dot of [A_prime] moves to the
    inverse of [A] in the circle around the origin dot. *)
Definition A_prime_updater (st : Scene T) : Scene T :=
  set_A_prime (circ_inverse_of (A st) (origin st) (RADIUS st)) st.

(** The dot chosen by [max] in the second updater of [add_updaters]. *)
Definition connector_end (st : Scene T) : Dot :=
  py_max_by (fun x => distance (dot_center st x) (origin st))
            DotA DotA_prime.

(** The second updater of [add_updaters]: the line becomes a new line from
    the centre of the origin dot to the chosen dot. *)
Definition line_updater (st : Scene T) : Scene T :=
  set_line (mkLine (origin st) (connector_end st)) st.

(** The closure [inverted_arc_updater] of [trace_circle], with the
    [center] and [radius] it captures: the arc it makes of the object. *)
Definition inverted_arc_updater (center : Vec3 T) (radius : T)
    (st : Scene T) : Arc T :=
  mkArc radius center
        (circle_angle (A_prime st) center)
        (pi - circle_angle (A_prime st) center).

(** The updater of [inverted_arc] runs only while it is attached. *)
Definition run_arc_updater (st : Scene T) : Scene T :=
  match arc_updater st with
  | Some (center, radius) =>
      set_inverted_arc (MArc (inverted_arc_updater center radius st)) st
  | None => st
  end.

(** One frame of the host: the animation in play has put the dot of [A]
    at [a]; then the updaters run in the order in which their objects
    entered the scene. *)
Definition advance_frame (a : Vec3 T) (st : Scene T) : Scene T :=
  run_arc_updater (line_updater (A_prime_updater (set_A a st))).

(** The frames of one [play], given the positions of [A] frame by frame:
    the state after each frame, and the state at the end. *)
Fixpoint play_frames (path : list (Vec3 T)) (st : Scene T)
    : list (Scene T) * Scene T :=
  match path with
  | [] => ([], st)
  | a :: path' =>
      let st' := advance_frame a st in
      let '(frames, final) := play_frames path' st' in
      (st' :: frames, final)
  end.

(** The three boundary points of the traced circle that [trace_circle]
    inverts. *)
Definition boundary_samples (circ : Circle T) : list (Vec3 T) :=
  [ vadd (circle_center circ) (vscale (circle_radius circ) RIGHT);
    vadd (circle_center circ) (vscale (circle_radius circ) UP);
    vadd (circle_center circ) (vscale (circle_radius circ) DOWN) ].

(** [inverted_circle_points] of [trace_circle] *)
Definition inverted_circle_points (st : Scene T) (circ : Circle T)
    : list (Vec3 T) :=
  [ circ_inverse_of
      (vadd (circle_center circ) (vscale (circle_radius circ) RIGHT))
      (origin st) (RADIUS st);
    circ_inverse_of
      (vadd (circle_center circ) (vscale (circle_radius circ) UP))
      (origin st) (RADIUS st);
    circ_inverse_of
      (vadd (circle_center circ) (vscale (circle_radius circ) DOWN))
      (origin st) (RADIUS st) ].

(** [center, radius = MathUtils.define_circle(...)] in [trace_circle] *)
Definition fitted_circle (st : Scene T) (circ : Circle T) : Vec3 T * T :=
  let pts := inverted_circle_points st circ in
  define_circle (nth 0 pts ORIGIN) (nth 1 pts ORIGIN) (nth 2 pts ORIGIN).

(** What one call of [trace_circle] shows: the states after the frames
    played while [inverted_arc_updater] is attached, and the state in
    which the call leaves the scene once the full circle is added. *)
Record Trace : Type := mkTrace {
  traced_frames : list (Scene T);
  traced_final : Scene T
}.

(** [trace_circle(r, c)], up to the call that adds the full circle to
    the scene; the calls after it only play animations of the host.  The
    host supplies [path], the positions of [A] frame by frame while
    [MoveAlongPath] drives it along [offset_circle]; this is the only
    [play] during which [inverted_arc_updater] runs. *)
Definition trace_circle (r : T) (c : T * T) (path : list (Vec3 T))
    (st : Scene T) : Trace :=
  let circ := shifted_circle r (vscale (fst c) RIGHT) (vscale (snd c) UP) in
  let st := set_circle circ st in
  let pts := inverted_circle_points st circ in
  let '(center, radius) :=
    define_circle (nth 0 pts ORIGIN) (nth 1 pts ORIGIN) (nth 2 pts ORIGIN) in
  let st := set_inverted_arc (MArc (mkArc radius center pi (of_Z 0))) st in
  let st := set_arc_updater (Some (center, radius)) st in
  let '(frames, st) := play_frames path st in
  let st := set_arc_updater None st in
  let st :=
    set_inverted_arc
      (MCircle (shifted_circle radius (vscale (vx center) RIGHT)
                               (vscale (vy center) UP))) st in
  mkTrace frames st.
End SceneCode.

(** ** Exact arithmetic *)

(** [math.atan2 y x] on the reals: the angle in the interval from [-PI]
    (excluded) to [PI] of the point [(x, y)], and [0] at the origin as the
    C library has it. *)
Definition Ratan2 (y x : R) : R :=
  (if Rlt_dec 0 x then atan (y / x)
   else if Rlt_dec x 0 then
     if Rle_dec 0 y then atan (y / x) + PI else atan (y / x) - PI
   else if Rlt_dec 0 y then PI / 2
   else if Rlt_dec y 0 then - (PI / 2)
   else 0)%R.

(** The sum of squares under the root of [norm]. *)
Definition dot2 (v : Vec3 R) : R :=
  (vx v * vx v + vy v * vy v + vz v * vz v)%R.

(** Twice the signed area of the triangle of three points of the plane;
    the points are collinear when it is zero. *)
Definition cross2 (p1 p2 p3 : Vec3 R) : R :=
  ((vx p2 - vx p1) * (vy p3 - vy p1)
   - (vx p3 - vx p1) * (vy p2 - vy p1))%R.

Definition collinear (p1 p2 p3 : Vec3 R) : Prop := cross2 p1 p2 p3 = 0%R.

(** A point of the drawing plane: an array whose third entry is zero. *)
Definition planar (p : Vec3 R) : Prop := vz p = 0%R.

(** The boundary point of a circle at a given angular offset from its
    centre. *)
Definition offset_point (circ : Circle R) (theta : R) : Vec3 R :=
  mkVec3 (vx (circle_center circ) + circle_radius circ * cos theta)%R
         (vy (circle_center circ) + circle_radius circ * sin theta)%R
         (vz (circle_center circ)).

(** The scene as [play_all] has it at its first call of [trace_circle]:
    the diagram has been moved three units to the left and [A] brought to
    [(-1.5, 0)], the rightmost point of the circle to trace. *)
Definition scene_at_first_trace : Scene R :=
  mkScene 2%R (mkVec3 (-3) 0 0)%R (mkVec3 (-3 / 2) 0 0)%R
          (mkVec3 (-1 / 3) 0 0)%R (mkLine (mkVec3 (-3) 0 0)%R DotA_prime)
          None None None.

Definition Rltb (x y : R) : bool := if Rlt_dec x y then true else false.

#[export] Instance R_scalar : Scalar R := {
  of_Z := IZR;
  sadd := Rplus;
  ssub := Rminus;
  sopp := Ropp;
  smul := Rmult;
  sdiv := Rdiv;
  ssqrt := R_sqrt.sqrt;
  sltb := Rltb
}.

#[export] Instance R_trig : Trig R := {
  arctan2 := Ratan2;
  pi := PI
}.

(** ** Binary64 arithmetic *)

(** An integer literal as the nearest [float64]; the literals of the
    source are below [2^63] in absolute value. *)
Definition float_of_Z (z : Z) : PrimFloat.float :=
  match z with
  | Z0 => PrimFloat.zero
  | Zpos _ => PrimFloat.of_uint63 (Uint63.of_Z z)
  | Zneg p => PrimFloat.opp (PrimFloat.of_uint63 (Uint63.of_Z (Zpos p)))
  end.

#[export] Instance float_scalar : Scalar PrimFloat.float := {
  of_Z := float_of_Z;
  sadd := PrimFloat.add;
  ssub := PrimFloat.sub;
  sopp := PrimFloat.opp;
  smul := PrimFloat.mul;
  sdiv := PrimFloat.div;
  ssqrt := PrimFloat.sqrt;
  sltb := PrimFloat.ltb
}.

(** Componentwise [==] of two arrays of floats. *)
Definition veqb (a b : Vec3 PrimFloat.float) : bool :=
  PrimFloat.eqb (vx a) (vx b) && PrimFloat.eqb (vy a) (vy b)
  && PrimFloat.eqb (vz a) (vz b).

(** Every component is neither an infinity nor a NaN. *)
Definition vfinite (a : Vec3 PrimFloat.float) : bool :=
  PrimFloat.is_finite (vx a) && PrimFloat.is_finite (vy a)
  && PrimFloat.is_finite (vz a).

(** The specification-level floats that are a zero or a finite number. *)
Inductive sf_finite : SpecFloat.spec_float -> Prop :=
| sf_finite_zero (s : bool) : sf_finite (SpecFloat.S754_zero s)
| sf_finite_num (s : bool) (m : positive) (e : Z) :
    sf_finite (SpecFloat.S754_finite s m e).

(** ** The scene and its list of displayed objects *)

(** The curve objects of the scene by identity.  [objects] holds every
    traced circle, arc and full circle created so far, an object being
    known by its index; [mobjects] lists the ones the scene displays
    ([Scene.mobjects]); [circle_id] and [inverted_arc_id] say which object
    the attributes [self.circle] and [self.inverted_arc] are bound to, and
    [updater_id] which object carries [inverted_arc_updater].  The values
    of the attributes are in [attrs], as before. *)
Record Stage (T : Type) : Type := mkStage {
  attrs : Scene T;
  objects : list (Mobject T);
  mobjects : list nat;
  circle_id : option nat;
  inverted_arc_id : option nat;
  updater_id : option nat
}.

Section StageCode.
Context {T : Type} `{Scalar T} `{Trig T}.

Definition with_attrs (st : Scene T) (sg : Stage T) : Stage T :=
  mkStage st (objects sg) (mobjects sg) (circle_id sg) (inverted_arc_id sg)
          (updater_id sg).
Definition with_objects (l : list (Mobject T)) (sg : Stage T) : Stage T :=
  mkStage (attrs sg) l (mobjects sg) (circle_id sg) (inverted_arc_id sg)
          (updater_id sg).
Definition with_mobjects (l : list nat) (sg : Stage T) : Stage T :=
  mkStage (attrs sg) (objects sg) l (circle_id sg) (inverted_arc_id sg)
          (updater_id sg).
Definition with_circle_id (i : option nat) (sg : Stage T) : Stage T :=
  mkStage (attrs sg) (objects sg) (mobjects sg) i (inverted_arc_id sg)
          (updater_id sg).
Definition with_inverted_arc_id (i : option nat) (sg : Stage T) : Stage T :=
  mkStage (attrs sg) (objects sg) (mobjects sg) (circle_id sg) i
          (updater_id sg).
Definition with_updater_id (i : option nat) (sg : Stage T) : Stage T :=
  mkStage (attrs sg) (objects sg) (mobjects sg) (circle_id sg)
          (inverted_arc_id sg) i.

(** A constructor call, [ma.Circle(...)] or [ma.Arc(...)]: a new object,
    known by the next free index. *)
Definition new_object (m : Mobject T) (sg : Stage T) : nat * Stage T :=
  (length (objects sg), with_objects (objects sg ++ [m]) sg).

(** [obj.become(m)]: the object changes in place and keeps its
    identity. *)
Fixpoint replace_nth (i : nat) (m : Mobject T) (l : list (Mobject T))
    : list (Mobject T) :=
  match l, i with
  | [], _ => []
  | _ :: l', O => m :: l'
  | x :: l', S i' => x :: replace_nth i' m l'
  end.

Definition become (i : nat) (m : Mobject T) (sg : Stage T) : Stage T :=
  with_objects (replace_nth i m (objects sg)) sg.

(** [self.add(obj)], also done by an animation that brings [obj] in
    ([FadeInFromLarge]): [obj] goes to the end of the displayed objects. *)
Definition scene_add (i : nat) (sg : Stage T) : Stage T :=
  with_mobjects (filter (fun j => negb (Nat.eqb j i)) (mobjects sg) ++ [i])
                sg.

(** What [Unwrite(obj)] leaves when it has played: [obj] is no longer
    displayed. *)
Definition scene_remove (i : nat) (sg : Stage T) : Stage T :=
  with_mobjects (filter (fun j => negb (Nat.eqb j i)) (mobjects sg)) sg.

(** One frame on the stage: the attributes as in [advance_frame], and the
    object that carries [inverted_arc_updater] becomes the arc made by
    it. *)
Definition stage_frame (a : Vec3 T) (sg : Stage T) : Stage T :=
  let st' := advance_frame a (attrs sg) in
  let sg' := with_attrs st' sg in
  match updater_id sg, arc_updater (attrs sg) with
  | Some i, Some (center, radius) =>
      become i (MArc (inverted_arc_updater center radius st')) sg'
  | _, _ => sg'
  end.

Fixpoint stage_frames (path : list (Vec3 T)) (sg : Stage T) : Stage T :=
  match path with
  | [] => sg
  | a :: path' => stage_frames path' (stage_frame a sg)
  end.

(** [trace_circle(r, c)] on the stage, up to and with
    [self.add(self.inverted_arc)].  The two [FadeInFromLarge] animations
    bring the traced circle and the arc into the scene; [offset_circle] is
    only the path of [MoveAlongPath] and is never displayed. *)
Definition trace_circle_added (r : T) (c : T * T) (path : list (Vec3 T))
    (sg : Stage T) : Stage T :=
  let circ := shifted_circle r (vscale (fst c) RIGHT) (vscale (snd c) UP) in
  let '(id_circle, sg) := new_object (MCircle circ) sg in
  let sg := with_circle_id (Some id_circle)
              (with_attrs (set_circle circ (attrs sg)) sg) in
  let pts := inverted_circle_points (attrs sg) circ in
  let '(center, radius) :=
    define_circle (nth 0 pts ORIGIN) (nth 1 pts ORIGIN) (nth 2 pts ORIGIN) in
  let arc0 := MArc (mkArc radius center pi (of_Z 0)) in
  let '(id_arc, sg) := new_object arc0 sg in
  let sg := with_inverted_arc_id (Some id_arc)
              (with_attrs (set_inverted_arc arc0 (attrs sg)) sg) in
  let sg := with_updater_id (Some id_arc)
              (with_attrs (set_arc_updater (Some (center, radius))
                                           (attrs sg)) sg) in
  let sg := scene_add id_circle sg in
  let sg := scene_add id_arc sg in
  let sg := stage_frames path sg in
  let sg := with_updater_id None
              (with_attrs (set_arc_updater None (attrs sg)) sg) in
  let full :=
    MCircle (shifted_circle radius (vscale (vx center) RIGHT)
                            (vscale (vy center) UP)) in
  let '(id_full, sg) := new_object full sg in
  let sg := with_inverted_arc_id (Some id_full)
              (with_attrs (set_inverted_arc full (attrs sg)) sg) in
  scene_add id_full sg.

(** The rest of [trace_circle]: the two [Unwrite] animations take the
    objects bound to [self.inverted_arc] and to [self.circle] off the
    scene. *)
Definition unwrite_bound (i : option nat) (sg : Stage T) : Stage T :=
  match i with
  | Some j => scene_remove j sg
  | None => sg
  end.

Definition trace_circle_shown (r : T) (c : T * T) (path : list (Vec3 T))
    (sg : Stage T) : Stage T :=
  let sg := trace_circle_added r c path sg in
  let sg := unwrite_bound (inverted_arc_id sg) sg in
  unwrite_bound (circle_id sg) sg.
End StageCode.

(** The real number that a specification-level float stands for (zero for
    the infinities and NaN, which stand for none). *)
Definition SF2R (x : SpecFloat.spec_float) : R :=
  match x with
  | SpecFloat.S754_finite s m e =>
      let v := if (0 <=? e)%Z then IZR (Zpos m * 2 ^ e)
               else (IZR (Zpos m) / IZR (2 ^ (- e)))%R in
      if s then (- v)%R else v
  | _ => 0%R
  end.

Definition float_to_R (x : PrimFloat.float) : R := SF2R (FloatOps.Prim2SF x).

(** An array of floats as the array of the reals they stand for. *)
Definition vec_to_R (v : Vec3 PrimFloat.float) : Vec3 R :=
  mkVec3 (float_to_R (vx v)) (float_to_R (vy v)) (float_to_R (vz v)).

(** The power of the point [o] with respect to the circle of centre [m]
    and radius [rho]: zero exactly when the circle passes through [o]. *)
Definition circle_power (o m : Vec3 R) (rho : R) : R :=
  (dot2 (vsub m o) - rho * rho)%R.

(** The image, under the inversion in the circle [(o, rad)], of the circle
    of centre [m] and radius [rho], in closed form. *)
Definition image_center (o : Vec3 R) (rad : R) (m : Vec3 R) (rho : R)
    : Vec3 R :=
  vadd o (vscale (rad * rad / circle_power o m rho)%R (vsub m o)).

Definition image_radius (o : Vec3 R) (rad : R) (m : Vec3 R) (rho : R) : R :=
  (rad * rad * rho / Rabs (circle_power o m rho))%R.

(** No point of the circle [(m, rho)] of the plane is so near to [o] that
    its inversion in [(o, rad)] reaches the cap. *)
Definition below_cap_on (o : Vec3 R) (rad : R) (m : Vec3 R) (rho : R)
    : Prop :=
  forall q : Vec3 R,
    planar q -> distance q m = rho ->
    (rad * rad <= IZR scale_cap * (distance q o * distance q o))%R.

(** * The frames of a trace *)

Section SceneFacts.
Context {T : Type} `{Scalar T} `{Trig T}.

(** The scene in which [trace_circle] starts to play frames: the traced
    circle is set, the arc is created and its updater attached. *)
Definition tracing_state (r : T) (c : T * T) (st : Scene T) : Scene T :=
  let circ := shifted_circle r (vscale (fst c) RIGHT) (vscale (snd c) UP) in
  let st1 := set_circle circ st in
  let fit := fitted_circle st1 circ in
  set_arc_updater (Some fit)
    (set_inverted_arc (MArc (mkArc (snd fit) (fst fit) pi (of_Z 0))) st1).

(** What holds of a frame played while the updater that captured
    [(center, radius)] is attached, in a scene whose inversion circle is
    [(o, rad)]. *)
Definition traced_frame (o : Vec3 T) (rad : T) (center : Vec3 T)
    (radius : T) (st : Scene T) : Prop :=
  origin st = o /\ RADIUS st = rad /\
  arc_updater st = Some (center, radius) /\
  A_prime st = circ_inverse_of (A st) o rad /\
  line st = mkLine o (connector_end st) /\
  inverted_arc st
  = Some (MArc (mkArc radius center
                      (circle_angle (A_prime st) center)
                      (ssub pi (circle_angle (A_prime st) center)))).

Lemma advance_frame_traced (a : Vec3 T) (st : Scene T)
    (center : Vec3 T) (radius : T) :
  arc_updater st = Some (center, radius) ->
  traced_frame (origin st) (RADIUS st) center radius (advance_frame a st)
  /\ A (advance_frame a st) = a.
Proof.
  intros Hu. unfold advance_frame, run_arc_updater.
  cbn [arc_updater line_updater A_prime_updater set_A set_A_prime set_line].
  rewrite Hu. unfold traced_frame. cbn. rewrite Hu. repeat split.
Qed.

Lemma advance_frame_fixed (a : Vec3 T) (st : Scene T) :
  origin (advance_frame a st) = origin st /\
  RADIUS (advance_frame a st) = RADIUS st /\
  arc_updater (advance_frame a st) = arc_updater st /\
  circle (advance_frame a st) = circle st.
Proof.
  unfold advance_frame, run_arc_updater.
  cbn [arc_updater line_updater A_prime_updater set_A set_A_prime set_line].
  destruct (arc_updater st) as [[center radius]|] eqn:Hu; cbn;
    rewrite ?Hu; repeat split.
Qed.

Lemma play_frames_fixed (path : list (Vec3 T)) (st : Scene T) :
  origin (snd (play_frames path st)) = origin st /\
  RADIUS (snd (play_frames path st)) = RADIUS st /\
  arc_updater (snd (play_frames path st)) = arc_updater st /\
  circle (snd (play_frames path st)) = circle st.
Proof.
  revert st. induction path as [|a path IH]; intros st; simpl.
  - repeat split.
  - specialize (IH (advance_frame a st)).
    destruct (play_frames path (advance_frame a st)) as [frames final].
    destruct (advance_frame_fixed a st) as (Ho & Hr & Hu & Hc).
    simpl in *. rewrite <- Ho, <- Hr, <- Hu, <- Hc. exact IH.
Qed.

Lemma play_frames_length (path : list (Vec3 T)) (st : Scene T) :
  length (fst (play_frames path st)) = length path.
Proof.
  revert st. induction path as [|a path IH]; intros st; simpl.
  - reflexivity.
  - specialize (IH (advance_frame a st)).
    destruct (play_frames path (advance_frame a st)) as [frames final].
    simpl in *. rewrite IH. reflexivity.
Qed.

(** Every frame played with the updater attached is a traced frame. *)
Lemma play_frames_traced (path : list (Vec3 T)) (st : Scene T)
    (center : Vec3 T) (radius : T) :
  arc_updater st = Some (center, radius) ->
  Forall (traced_frame (origin st) (RADIUS st) center radius)
         (fst (play_frames path st)).
Proof.
  revert st. induction path as [|a path IH]; intros st Hu; simpl.
  - constructor.
  - destruct (advance_frame_traced a st Hu) as [Hf _].
    destruct (advance_frame_fixed a st) as (Ho & Hr & Hu' & _).
    rewrite Hu in Hu'. specialize (IH (advance_frame a st) Hu').
    rewrite Ho, Hr in IH.
    destruct (play_frames path (advance_frame a st)) as [frames final].
    simpl in *. constructor; assumption.
Qed.

Lemma tracing_state_updater (r : T) (c : T * T) (st : Scene T) :
  arc_updater (tracing_state r c st)
  = Some (fitted_circle st (shifted_circle r (vscale (fst c) RIGHT)
                                           (vscale (snd c) UP))).
Proof. reflexivity. Qed.

(** [trace_circle] plays the path from the tracing state, and ends by
    detaching the updater and replacing the arc by the full circle. *)
Lemma trace_circle_unfold (r : T) (c : T * T) (path : list (Vec3 T))
    (st : Scene T) :
  let fit :=
    fitted_circle st
      (shifted_circle r (vscale (fst c) RIGHT) (vscale (snd c) UP)) in
  let p := play_frames path (tracing_state r c st) in
  trace_circle r c path st
  = mkTrace (fst p)
      (set_inverted_arc
         (MCircle (shifted_circle (snd fit) (vscale (vx (fst fit)) RIGHT)
                                  (vscale (vy (fst fit)) UP)))
         (set_arc_updater None (snd p))).
Proof.
  cbv zeta. unfold trace_circle, tracing_state, fitted_circle.
  cbn [inverted_circle_points nth origin RADIUS set_circle].
  destruct (define_circle _ _ _) as [center radius].
  cbn [fst snd].
  destruct (play_frames path _) as [frames st1].
  reflexivity.
Qed.

(** A frame overwrites whatever the frame before it left. *)
Lemma advance_frame_overwrites (a b : Vec3 T) (st : Scene T) :
  advance_frame a (advance_frame b st) = advance_frame a st.
Proof.
  destruct st as [rad o pa pa' l ci ia [[center radius]|]]; reflexivity.
Qed.

(** The scene after a [play] is the one its last frame alone produces. *)
Lemma play_frames_snoc (path : list (Vec3 T)) (a : Vec3 T) (st : Scene T) :
  snd (play_frames (path ++ [a]) st) = advance_frame a st.
Proof.
  revert st. induction path as [|b path IH]; intros st.
  - reflexivity.
  - change (play_frames ((b :: path) ++ [a]) st)
      with (let '(frames, final) :=
              play_frames (path ++ [a]) (advance_frame b st) in
            (advance_frame b st :: frames, final)).
    specialize (IH (advance_frame b st)).
    destruct (play_frames (path ++ [a]) (advance_frame b st))
      as [frames final].
    cbn [snd] in *. rewrite IH. apply advance_frame_overwrites.
Qed.

(** X10: frames keep no memory: a frame overwrites whatever the frame
    before it left, and the scene after a [play] is the scene that its
    last frame alone would have produced, whatever positions of [A] came
    before. *)
Theorem play_frames_last (path : list (Vec3 T)) (a b : Vec3 T)
    (st : Scene T) :
  advance_frame a (advance_frame b st) = advance_frame a st /\
  snd (play_frames (path ++ [a]) st) = advance_frame a st.
Proof.
  split; [apply advance_frame_overwrites | apply play_frames_snoc].
Qed.

(** X12: [trace_circle] never touches the inversion circle: its centre
    and its radius are the same in every frame of the trace and at its
    end; and at the end of a trace with at least one frame, [A] is where
    the last frame has put it, with [A'] its inverse and the connector
    line chosen for these two. *)
Theorem trace_circle_keeps_inversion_circle (r : T) (c : T * T)
    (path : list (Vec3 T)) (st : Scene T) :
  let tr := trace_circle r c path st in
  origin (traced_final tr) = origin st /\
  RADIUS (traced_final tr) = RADIUS st /\
  Forall (fun st' : Scene T =>
            origin st' = origin st /\ RADIUS st' = RADIUS st)
         (traced_frames tr) /\
  (forall (path' : list (Vec3 T)) (a : Vec3 T),
     path = path' ++ [a] ->
     A (traced_final tr) = a /\
     A_prime (traced_final tr)
     = circ_inverse_of a (origin st) (RADIUS st) /\
     line (traced_final tr)
     = mkLine (origin st) (connector_end (traced_final tr))).
Proof.
  intros tr. unfold tr. rewrite trace_circle_unfold. cbv zeta.
  cbn [traced_final traced_frames origin RADIUS A A_prime line
       set_inverted_arc set_arc_updater].
  set (st0 := tracing_state r c st).
  destruct (play_frames_fixed path st0) as (Ho & Hr & _ & _).
  split; [exact Ho|]. split; [exact Hr|]. split.
  - pose proof (tracing_state_updater r c st) as Hu. fold st0 in Hu.
    destruct (fitted_circle st _) as [center radius].
    pose proof (play_frames_traced path st0 Hu) as Hall.
    apply (Forall_impl _ (P := traced_frame (origin st0) (RADIUS st0)
                                             center radius));
      [|exact Hall].
    intros st' (Ho' & Hr' & _). split; assumption.
  - intros path' a Hpath. subst path. rewrite play_frames_snoc.
    pose proof (tracing_state_updater r c st) as Hu. fold st0 in Hu.
    destruct (fitted_circle st _) as [center radius].
    destruct (advance_frame_traced a st0 Hu) as [Hf Ha].
    destruct Hf as (_ & _ & _ & Hp & Hl & _).
    split; [exact Ha|]. split; [exact Hp|]. exact Hl.
Qed.
End SceneFacts.

(** * The displayed objects of a trace *)

Section StageFacts.
Context {T : Type} `{Scalar T} `{Trig T}.









End StageFacts.

(** * Properties in exact arithmetic *)

Module Exact.
Local Open Scope R_scope.

Ltac to_R :=
  cbn [of_Z sadd ssub sopp smul sdiv ssqrt sltb R_scalar arctan2 pi R_trig
       vx vy vz fst snd] in *.

Ltac kernel :=
  unfold circ_inverse_of, capped_scale, raw_scale, distance, norm, vadd,
    vsub, vscale, sq in *; to_R.

Lemma dot2_nonneg (v : Vec3 R) : 0 <= dot2 v.
Proof. unfold dot2. nra. Qed.

Lemma norm_dot2 (v : Vec3 R) : norm v = sqrt (dot2 v).
Proof. reflexivity. Qed.

Lemma norm_nonneg (v : Vec3 R) : 0 <= norm v.
Proof. rewrite norm_dot2. apply sqrt_pos. Qed.

Lemma norm_sqr (v : Vec3 R) : norm v * norm v = dot2 v.
Proof. rewrite norm_dot2. apply sqrt_sqrt, dot2_nonneg. Qed.

Lemma vec3_eq (a b : Vec3 R) :
  vx a = vx b -> vy a = vy b -> vz a = vz b -> a = b.
Proof. destruct a, b; simpl; intros; subst; reflexivity. Qed.

Lemma dot2_vsub_pos (p c : Vec3 R) : p <> c -> 0 < dot2 (vsub p c).
Proof.
  intros Hne.
  destruct (Rle_lt_dec (dot2 (vsub p c)) 0) as [Hle|Hlt]; [|exact Hlt].
  exfalso. apply Hne.
  unfold dot2, vsub in Hle; to_R.
  pose proof (Rle_0_sqr (vx p - vx c)) as Hx.
  pose proof (Rle_0_sqr (vy p - vy c)) as Hy.
  pose proof (Rle_0_sqr (vz p - vz c)) as Hz.
  unfold Rsqr in Hx, Hy, Hz.
  apply vec3_eq; apply Rminus_diag_uniq, Rsqr_0_uniq; unfold Rsqr; lra.
Qed.

Lemma norm_vsub_pos (p c : Vec3 R) : p <> c -> 0 < norm (vsub p c).
Proof.
  intros Hne. rewrite norm_dot2. apply sqrt_lt_R0, dot2_vsub_pos, Hne.
Qed.

Lemma norm_vsub_sym (a b : Vec3 R) : norm (vsub a b) = norm (vsub b a).
Proof.
  rewrite !norm_dot2. f_equal. unfold dot2, vsub; to_R. ring.
Qed.

Lemma norm_vscale (k : R) (v : Vec3 R) :
  0 <= k -> norm (vscale k v) = k * norm v.
Proof.
  intros Hk. rewrite !norm_dot2.
  replace (dot2 (vscale k v)) with (k * k * dot2 v)
    by (unfold dot2, vscale; to_R; ring).
  rewrite sqrt_mult by (try apply dot2_nonneg; nra).
  rewrite sqrt_square by exact Hk. reflexivity.
Qed.

Lemma py_min_Rmin (a b : R) : py_min a b = Rmin a b.
Proof.
  unfold py_min; to_R. unfold Rltb, Rmin.
  destruct (Rlt_dec b a), (Rle_dec a b); lra.
Qed.

(** The scale factor before the cap is [r^2 / n^2]. *)
Lemma raw_scale_eq (p c : Vec3 R) (r : R) :
  p <> c -> raw_scale p c r = r * r / dot2 (vsub p c).
Proof.
  intros Hne. pose proof (norm_vsub_pos Hne) as Hn.
  pose proof (norm_sqr (vsub p c)) as Hs.
  unfold raw_scale, sq; to_R. rewrite <- Hs. field. lra.
Qed.

Lemma raw_scale_pos (p c : Vec3 R) (r : R) :
  p <> c -> 0 < r -> 0 < raw_scale p c r.
Proof.
  intros Hne Hr. rewrite raw_scale_eq by exact Hne.
  apply Rdiv_lt_0_compat; [nra | apply dot2_vsub_pos, Hne].
Qed.

Lemma cap_pos : 0 < IZR scale_cap.
Proof. apply IZR_lt. reflexivity. Qed.

Lemma capped_scale_Rmin (p c : Vec3 R) (r : R) :
  capped_scale p c r = Rmin (raw_scale p c r) (IZR scale_cap).
Proof. unfold capped_scale. apply py_min_Rmin. Qed.

Lemma circ_inverse_of_scale (p c : Vec3 R) (r : R) :
  circ_inverse_of p c r = vadd c (vscale (capped_scale p c r) (vsub p c)).
Proof. reflexivity. Qed.

Lemma capped_scale_bounds (p c : Vec3 R) (r : R) :
  p <> c -> 0 < r -> 0 < capped_scale p c r <= IZR scale_cap.
Proof.
  intros Hne Hr. rewrite capped_scale_Rmin. split.
  - apply Rmin_glb_lt; [apply raw_scale_pos; assumption | apply cap_pos].
  - apply Rmin_r.
Qed.

(** C10: for [p <> c] and [0 < r] the displacement of the result from the
    centre is the displacement of [p] multiplied by the capped scale
    factor, and that factor is positive (so nonnegative) and at most the
    cap: the result lies on the ray from [c] through [p]. *)
Theorem circ_inverse_of_on_ray (p c : Vec3 R) (r : R) :
  p <> c -> 0 < r ->
  exists k : R,
    k = capped_scale p c r /\ 0 <= k /\ 0 < k <= IZR scale_cap /\
    vsub (circ_inverse_of p c r) c = vscale k (vsub p c).
Proof.
  intros Hne Hr. exists (capped_scale p c r).
  pose proof (capped_scale_bounds Hne Hr) as Hk.
  repeat split; try lra.
  rewrite circ_inverse_of_scale.
  apply vec3_eq; unfold vadd, vsub, vscale; to_R; ring.
Qed.

Lemma vec3_neq_x (a b : Vec3 R) : vx a <> vx b -> a <> b.
Proof. intros Hx Heq. apply Hx. rewrite Heq. reflexivity. Qed.

(** C10, witness: [A] at [(1, 0)] in the inversion circle of the scene. *)
Lemma circ_inverse_of_on_ray_witness :
  let p := mkVec3 1 0 0 in
  let c := mkVec3 0 0 0 in
  (p <> c /\ 0 < 2) /\
  exists k : R,
    k = capped_scale p c 2 /\ 0 <= k /\ 0 < k <= IZR scale_cap /\
    vsub (circ_inverse_of p c 2) c = vscale k (vsub p c).
Proof.
  intros p c.
  assert (Hne : p <> c) by (apply vec3_neq_x; simpl; lra).
  assert (Hr : 0 < 2) by lra.
  split; [split; assumption|].
  exact (@circ_inverse_of_on_ray p c 2 Hne Hr).
Defined.

Lemma circ_inverse_of_uncapped (p c : Vec3 R) (r : R) :
  p <> c -> raw_scale p c r <= IZR scale_cap ->
  circ_inverse_of p c r
  = vadd c (vscale (r * r / dot2 (vsub p c)) (vsub p c)).
Proof.
  intros Hne Hle. rewrite circ_inverse_of_scale, capped_scale_Rmin.
  rewrite Rmin_left by exact Hle. rewrite raw_scale_eq by exact Hne.
  reflexivity.
Qed.

Lemma circ_inverse_of_capped (p c : Vec3 R) (r : R) :
  IZR scale_cap <= raw_scale p c r ->
  circ_inverse_of p c r = vadd c (vscale (IZR scale_cap) (vsub p c)).
Proof.
  intros Hle. rewrite circ_inverse_of_scale, capped_scale_Rmin.
  rewrite Rmin_right by exact Hle. reflexivity.
Qed.

Lemma distance_to_scaled (c d : Vec3 R) (k : R) :
  0 <= k -> distance c (vadd c (vscale k d)) = k * norm d.
Proof.
  intros Hk. unfold distance. rewrite norm_vsub_sym.
  replace (vsub (vadd c (vscale k d)) c) with (vscale k d).
  - apply norm_vscale, Hk.
  - apply vec3_eq; unfold vadd, vsub, vscale; to_R; ring.
Qed.

Lemma distance_sqr (a b : Vec3 R) :
  distance a b * distance a b = dot2 (vsub a b).
Proof. unfold distance. apply norm_sqr. Qed.

Lemma distance_sym (a b : Vec3 R) : distance a b = distance b a.
Proof. unfold distance. apply norm_vsub_sym. Qed.

(** The product of the two distances from the centre is the scale factor
    times the squared distance of [p], capped or not. *)
Lemma distance_product (p c : Vec3 R) (r : R) :
  p <> c -> 0 < r ->
  distance c p * distance c (circ_inverse_of p c r)
  = capped_scale p c r * dot2 (vsub p c).
Proof.
  intros Hne Hr.
  destruct (capped_scale_bounds Hne Hr) as [Hk _].
  rewrite circ_inverse_of_scale, distance_to_scaled by lra.
  rewrite (distance_sym c p). unfold distance.
  rewrite <- (norm_sqr (vsub p c)). ring.
Qed.

(** The cap is not reached exactly when [r^2 <= cap * n^2]. *)
Lemma raw_scale_le_cap (p c : Vec3 R) (r : R) :
  p <> c ->
  r * r <= IZR scale_cap * (distance p c * distance p c) ->
  raw_scale p c r <= IZR scale_cap.
Proof.
  intros Hne Hle. rewrite distance_sqr in Hle.
  pose proof (dot2_vsub_pos Hne) as HD.
  rewrite raw_scale_eq by exact Hne.
  apply (Rmult_le_reg_r (dot2 (vsub p c))); [exact HD|].
  unfold Rdiv. rewrite Rmult_assoc, Rinv_l by lra. lra.
Qed.

Lemma cap_lt_raw_scale (p c : Vec3 R) (r : R) :
  p <> c ->
  IZR scale_cap * (distance p c * distance p c) < r * r ->
  IZR scale_cap < raw_scale p c r.
Proof.
  intros Hne Hlt. rewrite distance_sqr in Hlt.
  pose proof (dot2_vsub_pos Hne) as HD.
  rewrite raw_scale_eq by exact Hne.
  apply (Rmult_lt_reg_r (dot2 (vsub p c))); [exact HD|].
  unfold Rdiv. rewrite Rmult_assoc, Rinv_l by lra. lra.
Qed.

(** C1 (amended): for [p <> c] and [0 < r], as long as the scale factor
    [r^2 / n^2] does not exceed the cap, that is [r^2 <= cap * n^2] with
    [n] the distance of [p] from [c], the product of the distances of [p]
    and of its inverse from [c] is [r^2], and the inverse is
    [c + (r^2 / n^2) * (p - c)]. *)
Theorem inversion_product_identity (p c : Vec3 R) (r : R) :
  p <> c -> 0 < r ->
  r * r <= IZR scale_cap * (distance p c * distance p c) ->
  distance c p * distance c (circ_inverse_of p c r) = r * r /\
  circ_inverse_of p c r
  = vadd c (vscale (r * r / (distance p c * distance p c)) (vsub p c)).
Proof.
  intros Hne Hr Hcap.
  pose proof (raw_scale_le_cap Hne Hcap) as Hraw.
  pose proof (dot2_vsub_pos Hne) as HD.
  split.
  - rewrite distance_product by assumption.
    rewrite capped_scale_Rmin, Rmin_left by exact Hraw.
    rewrite raw_scale_eq by exact Hne. field. lra.
  - rewrite distance_sqr. apply circ_inverse_of_uncapped; assumption.
Qed.

(** Past the cap the product falls short of [r^2]. *)
Lemma inversion_product_capped (p c : Vec3 R) (r : R) :
  p <> c -> 0 < r ->
  IZR scale_cap * (distance p c * distance p c) < r * r ->
  distance c p * distance c (circ_inverse_of p c r)
  = IZR scale_cap * (distance p c * distance p c).
Proof.
  intros Hne Hr Hcap.
  pose proof (cap_lt_raw_scale Hne Hcap) as Hraw.
  rewrite distance_product by assumption.
  rewrite capped_scale_Rmin, Rmin_right by lra.
  rewrite distance_sqr. reflexivity.
Qed.

(** C1, witness: the inversion circle of the scene, [A] at [(1, 0)]. *)
Lemma inversion_product_identity_witness :
  let p := mkVec3 1 0 0 in
  let c := mkVec3 0 0 0 in
  (p <> c /\ 0 < 2 /\
   2 * 2 <= IZR scale_cap * (distance p c * distance p c)) /\
  distance c p * distance c (circ_inverse_of p c 2) = 2 * 2 /\
  circ_inverse_of p c 2
  = vadd c (vscale (2 * 2 / (distance p c * distance p c)) (vsub p c)).
Proof.
  intros p c.
  assert (Hne : p <> c) by (apply vec3_neq_x; simpl; lra).
  assert (Hcap : 2 * 2 <= IZR scale_cap * (distance p c * distance p c)).
  { rewrite distance_sqr. unfold dot2, vsub, scale_cap, p, c; to_R. lra. }
  split; [repeat split; [exact Hne | lra | exact Hcap]|].
  apply (@inversion_product_identity p c 2); [exact Hne | lra | exact Hcap].
Defined.

(** C1, counterexample: with [r = 1], centre at the origin and [p] at
    distance [2^-40] from it, the scale factor [2^80] is cut down to the
    cap and the product of the distances is [cap * 2^-80], not [1]. *)
Lemma inversion_product_fails_near_center :
  let p := mkVec3 (/ 2 ^ 40) 0 0 in
  let c := mkVec3 0 0 0 in
  p <> c /\ 0 < 1 /\
  distance c p * distance c (circ_inverse_of p c 1) <> 1 * 1.
Proof.
  intros p c.
  assert (Hne : p <> c) by (apply vec3_neq_x; simpl; lra).
  assert (HD : distance p c * distance p c = / 2 ^ 80).
  { rewrite distance_sqr. unfold dot2, vsub, p, c; to_R. field. }
  split; [exact Hne|]. split; [lra|].
  rewrite inversion_product_capped; try assumption; try lra;
    rewrite HD; unfold scale_cap; lra.
Qed.

(** The inverse of a point other than the centre is again a point other
    than the centre. *)
Lemma circ_inverse_of_neq_center (p c : Vec3 R) (r : R) :
  p <> c -> 0 < r -> circ_inverse_of p c r <> c.
Proof.
  intros Hne Hr Heq.
  pose proof (capped_scale_bounds Hne Hr) as [Hk _].
  pose proof (norm_vsub_pos Hne) as Hn.
  assert (Hd : distance c (circ_inverse_of p c r) = 0).
  { rewrite Heq. unfold distance. rewrite norm_dot2.
    replace (dot2 (vsub c c)) with 0
      by (unfold dot2, vsub; to_R; ring).
    apply sqrt_0. }
  rewrite circ_inverse_of_scale, distance_to_scaled in Hd by lra.
  nra.
Qed.

(** C5 (amended): for [p <> c] and [0 < r], when neither inversion reaches
    the cap, that is [r^2 <= cap * n^2] and [n^2 <= cap * r^2] with [n]
    the distance of [p] from [c], inverting twice gives [p] back. *)
Theorem inversion_involution (p c : Vec3 R) (r : R) :
  p <> c -> 0 < r ->
  r * r <= IZR scale_cap * (distance p c * distance p c) ->
  distance p c * distance p c <= IZR scale_cap * (r * r) ->
  circ_inverse_of (circ_inverse_of p c r) c r = p.
Proof.
  intros Hne Hr Hnear Hfar.
  pose proof (dot2_vsub_pos Hne) as HD.
  pose proof (raw_scale_le_cap Hne Hnear) as Hraw.
  pose proof (circ_inverse_of_neq_center Hne Hr) as Hne'.
  rewrite distance_sqr in Hfar.
  rewrite (circ_inverse_of_uncapped Hne Hraw) in *.
  set (D := dot2 (vsub p c)) in *.
  set (q := vadd c (vscale (r * r / D) (vsub p c))) in *.
  assert (HD' : dot2 (vsub q c) = r * r * (r * r) / D).
  { unfold q, D, dot2, vadd, vsub, vscale in *; to_R. field. lra. }
  assert (Hraw' : raw_scale q c r <= IZR scale_cap).
  { rewrite raw_scale_eq, HD' by exact Hne'.
    replace (r * r / (r * r * (r * r) / D)) with (D / (r * r))
      by (field; nra).
    apply (Rmult_le_reg_r (r * r)); [nra|].
    unfold Rdiv. rewrite Rmult_assoc, Rinv_l by nra. lra. }
  rewrite (circ_inverse_of_uncapped Hne' Hraw'), HD'.
  apply vec3_eq; unfold q, vadd, vsub, vscale; to_R; field; nra.
Qed.

(** C5, witness: [(1, 0)] in the circle of radius 2 around the origin. *)
Lemma inversion_involution_witness :
  let p := mkVec3 1 0 0 in
  let c := mkVec3 0 0 0 in
  (p <> c /\ 0 < 2 /\
   2 * 2 <= IZR scale_cap * (distance p c * distance p c) /\
   distance p c * distance p c <= IZR scale_cap * (2 * 2)) /\
  circ_inverse_of (circ_inverse_of p c 2) c 2 = p.
Proof.
  intros p c.
  assert (Hne : p <> c) by (apply vec3_neq_x; simpl; lra).
  assert (HD : distance p c * distance p c = 1).
  { rewrite distance_sqr. unfold dot2, vsub, p, c; to_R. ring. }
  assert (Hnear : 2 * 2 <= IZR scale_cap * (distance p c * distance p c))
    by (rewrite HD; unfold scale_cap; lra).
  assert (Hfar : distance p c * distance p c <= IZR scale_cap * (2 * 2))
    by (rewrite HD; unfold scale_cap; lra).
  split; [repeat split; [exact Hne | lra | exact Hnear | exact Hfar]|].
  apply (@inversion_involution p c 2);
    [exact Hne | lra | exact Hnear | exact Hfar].
Defined.

(** C5, counterexample: with [r = 1], centre at the origin and [p] at
    distance [2^-40], the first inversion is cut down to the cap and lands
    at distance [cap * 2^-40]; the second, which is not capped, comes back
    to distance [2^40 / cap], which is not [2^-40]. *)
Lemma inversion_involution_fails_near_center :
  let p := mkVec3 (/ 2 ^ 40) 0 0 in
  let c := mkVec3 0 0 0 in
  p <> c /\ 0 < 1 /\
  circ_inverse_of (circ_inverse_of p c 1) c 1 <> p.
Proof.
  intros p c.
  assert (Hne : p <> c) by (apply vec3_neq_x; simpl; lra).
  assert (HD : distance p c * distance p c = / 2 ^ 80).
  { rewrite distance_sqr. unfold dot2, vsub, p, c; to_R. field. }
  split; [exact Hne|]. split; [lra|].
  assert (Hcap : IZR scale_cap <= raw_scale p c 1).
  { apply Rlt_le, cap_lt_raw_scale; [exact Hne|].
    rewrite HD. unfold scale_cap. lra. }
  rewrite (circ_inverse_of_capped Hcap).
  set (q := vadd c (vscale (IZR scale_cap) (vsub p c))).
  assert (Hne' : q <> c).
  { apply vec3_neq_x. unfold q, vadd, vscale, vsub, p, c, scale_cap; to_R.
    lra. }
  assert (HD' : dot2 (vsub q c) = IZR scale_cap * IZR scale_cap / 2 ^ 80).
  { unfold q, dot2, vadd, vscale, vsub, p, c; to_R. field. }
  assert (Hraw' : raw_scale q c 1 <= IZR scale_cap).
  { rewrite raw_scale_eq, HD' by exact Hne'. unfold scale_cap. lra. }
  rewrite (circ_inverse_of_uncapped Hne' Hraw'), HD'.
  intros Heq. apply (f_equal (@vx R)) in Heq.
  unfold q, vadd, vscale, vsub, p, c, scale_cap in Heq; to_R.
  lra.
Qed.

(** ** The circle through three points *)

Lemma sides2_R (p1 p2 p3 : Vec3 R) :
  sides2 p1 p2 p3
  = ((vx p2 - vx p3) * (vx p2 - vx p3) + (vy p2 - vy p3) * (vy p2 - vy p3),
     (vx p3 - vx p1) * (vx p3 - vx p1) + (vy p3 - vy p1) * (vy p3 - vy p1),
     (vx p1 - vx p2) * (vx p1 - vx p2) + (vy p1 - vy p2) * (vy p1 - vy p2)).
Proof. reflexivity. Qed.

(** The denominator is sixteen times the squared area of the triangle. *)
Lemma circle_denominator_cross2 (p1 p2 p3 : Vec3 R) :
  circle_denominator p1 p2 p3 = 4 * (cross2 p1 p2 p3 * cross2 p1 p2 p3).
Proof.
  unfold circle_denominator. rewrite sides2_R. unfold cross2; to_R. ring.
Qed.

Lemma circle_denominator_zero_iff (p1 p2 p3 : Vec3 R) :
  circle_denominator p1 p2 p3 = 0 <-> collinear p1 p2 p3.
Proof.
  rewrite circle_denominator_cross2. unfold collinear. split; intros Hc.
  - apply Rsqr_0_uniq. unfold Rsqr. lra.
  - rewrite Hc. ring.
Qed.

Lemma circle_denominator_pos (p1 p2 p3 : Vec3 R) :
  ~ collinear p1 p2 p3 -> 0 < circle_denominator p1 p2 p3.
Proof.
  intros Hnc. rewrite circle_denominator_cross2.
  pose proof (Rsqr_pos_lt _ Hnc) as Hs. unfold Rsqr in Hs. lra.
Qed.

(** Heron's product of the side lengths is the denominator again. *)
Lemma heron_product (a b c : R) :
  0 <= a -> 0 <= b -> 0 <= c ->
  (sqrt a + sqrt b + sqrt c) * (- sqrt a + sqrt b + sqrt c)
  * (sqrt a - sqrt b + sqrt c) * (sqrt a + sqrt b - sqrt c)
  = 2 * (a * b + b * c + c * a) - (a * a + b * b + c * c).
Proof.
  intros Ha Hb Hc.
  pose proof (sqrt_sqrt a Ha) as Ea.
  pose proof (sqrt_sqrt b Hb) as Eb.
  pose proof (sqrt_sqrt c Hc) as Ec.
  set (u := sqrt a) in *. set (v := sqrt b) in *. set (w := sqrt c) in *.
  clearbody u v w. subst a b c. ring.
Qed.

Lemma sum_sqr_nonneg (x y : R) : 0 <= x * x + y * y.
Proof. nra. Qed.

Ltac circle_kernel :=
  unfold define_circle, circle_denominator, sides2, dot2, vsub, sq in *;
  to_R.

(** The squared radius is the product of the squared sides over the
    denominator. *)
Lemma define_circle_radius (p1 p2 p3 : Vec3 R) :
  ~ collinear p1 p2 p3 ->
  let '(a, b, c) := sides2 p1 p2 p3 in
  snd (define_circle p1 p2 p3)
  = sqrt (a * b * c / circle_denominator p1 p2 p3).
Proof.
  intros Hnc. pose proof (circle_denominator_pos Hnc) as Hs.
  rewrite sides2_R. circle_kernel.
  set (a := (vx p2 - vx p3) * (vx p2 - vx p3)
            + (vy p2 - vy p3) * (vy p2 - vy p3)) in *.
  set (b := (vx p3 - vx p1) * (vx p3 - vx p1)
            + (vy p3 - vy p1) * (vy p3 - vy p1)) in *.
  set (c := (vx p1 - vx p2) * (vx p1 - vx p2)
            + (vy p1 - vy p2) * (vy p1 - vy p2)) in *.
  assert (Ha : 0 <= a) by apply sum_sqr_nonneg.
  assert (Hb : 0 <= b) by apply sum_sqr_nonneg.
  assert (Hc : 0 <= c) by apply sum_sqr_nonneg.
  rewrite (heron_product Ha Hb Hc).
  rewrite sqrt_div_alt by exact Hs.
  rewrite !sqrt_mult by nra.
  reflexivity.
Qed.

(** The squared distance of the centre from each of the three points is
    that same quotient. *)
Lemma define_circle_center_dot2 (p1 p2 p3 : Vec3 R) :
  ~ collinear p1 p2 p3 ->
  planar p1 -> planar p2 -> planar p3 ->
  let '(a, b, c) := sides2 p1 p2 p3 in
  let center := fst (define_circle p1 p2 p3) in
  dot2 (vsub center p1) = a * b * c / circle_denominator p1 p2 p3 /\
  dot2 (vsub center p2) = a * b * c / circle_denominator p1 p2 p3 /\
  dot2 (vsub center p3) = a * b * c / circle_denominator p1 p2 p3.
Proof.
  intros Hnc Hz1 Hz2 Hz3. pose proof (circle_denominator_pos Hnc) as Hs.
  unfold planar in *. rewrite sides2_R. circle_kernel.
  rewrite Hz1, Hz2, Hz3.
  repeat split; field; lra.
Qed.

Lemma distance_planar (p q : Vec3 R) :
  planar p -> planar q ->
  distance p q
  = sqrt ((vx p - vx q) * (vx p - vx q) + (vy p - vy q) * (vy p - vy q)).
Proof.
  unfold planar. intros Hp Hq. unfold distance. rewrite norm_dot2.
  f_equal. unfold dot2, vsub; to_R. rewrite Hp, Hq. ring.
Qed.

(** C3 (amended): in exact arithmetic, for three points of the plane that
    are not collinear, the centre returned by [define_circle] is at the
    returned radius from each of them, and that radius is
    [a*b*c / sqrt((a+b+c)(-a+b+c)(a-b+c)(a+b-c))] for the side lengths
    [a], [b], [c] of the triangle. *)
Theorem define_circle_circumcircle (p1 p2 p3 : Vec3 R) :
  planar p1 -> planar p2 -> planar p3 ->
  ~ collinear p1 p2 p3 ->
  let center := fst (define_circle p1 p2 p3) in
  let radius := snd (define_circle p1 p2 p3) in
  let a := distance p2 p3 in
  let b := distance p3 p1 in
  let c := distance p1 p2 in
  distance center p1 = radius /\
  distance center p2 = radius /\
  distance center p3 = radius /\
  radius
  = a * b * c
    / sqrt ((a + b + c) * (- a + b + c) * (a - b + c) * (a + b - c)).
Proof.
  intros Hz1 Hz2 Hz3 Hnc center radius a b c.
  pose proof (define_circle_radius Hnc) as Hr.
  pose proof (define_circle_center_dot2 Hnc Hz1 Hz2 Hz3) as Hd.
  destruct (sides2 p1 p2 p3) as [[a2 b2] c2].
  fold radius in Hr. cbv zeta in Hd. fold center in Hd.
  destruct Hd as (Hd1 & Hd2 & Hd3).
  unfold distance at 1 2 3. rewrite !norm_dot2, Hd1, Hd2, Hd3, <- Hr.
  repeat split.
  unfold a, b, c. rewrite !distance_planar by assumption. reflexivity.
Qed.

(** C3, witness: the right triangle [(0,0)], [(1,0)], [(0,1)]. *)
Lemma define_circle_circumcircle_witness :
  let p1 := mkVec3 0 0 0 in
  let p2 := mkVec3 1 0 0 in
  let p3 := mkVec3 0 1 0 in
  let center := fst (define_circle p1 p2 p3) in
  let radius := snd (define_circle p1 p2 p3) in
  (planar p1 /\ planar p2 /\ planar p3 /\ ~ collinear p1 p2 p3) /\
  distance center p1 = radius /\
  distance center p2 = radius /\
  distance center p3 = radius.
Proof.
  intros p1 p2 p3 center radius.
  assert (Hnc : ~ collinear p1 p2 p3).
  { unfold collinear, cross2, p1, p2, p3; simpl. lra. }
  split; [repeat split; exact Hnc|].
  destruct (@define_circle_circumcircle p1 p2 p3
              eq_refl eq_refl eq_refl Hnc) as (H1 & H2 & H3 & _).
  repeat split; assumption.
Defined.

(** ** The polar angle *)

Lemma Ratan2_range (y x : R) : - PI < Ratan2 y x <= PI.
Proof.
  unfold Ratan2. pose proof PI_RGT_0 as Hpi.
  pose proof (atan_bound (y / x)) as Hb.
  destruct (Rlt_dec 0 x) as [Hx|Hx]; [lra|].
  destruct (Rlt_dec x 0) as [Hx'|Hx'].
  - destruct (Rle_dec 0 y) as [Hy|Hy].
    + assert (Ht : y / x <= 0).
      { assert (0 <= y * / (- x)).
        { apply Rmult_le_pos; [exact Hy|].
          apply Rlt_le, Rinv_0_lt_compat. lra. }
        replace (y / x) with (- (y * / (- x))) by (field; lra). lra. }
      assert (atan (y / x) <= 0).
      { destruct Ht as [Ht|Ht].
        - apply Rlt_le. rewrite <- atan_0. apply atan_increasing, Ht.
        - rewrite Ht, atan_0. lra. }
      lra.
    + assert (Ht : 0 < y / x).
      { replace (y / x) with ((- y) * / (- x)) by (field; lra).
        apply Rmult_lt_0_compat; [lra|]. apply Rinv_0_lt_compat. lra. }
      assert (0 < atan (y / x))
        by (rewrite <- atan_0; apply atan_increasing, Ht).
      lra.
  - destruct (Rlt_dec 0 y); [lra|]. destruct (Rlt_dec y 0); lra.
Qed.

Lemma hypot_factor (x y : R) :
  x <> 0 -> sqrt (x * x + y * y) = Rabs x * sqrt (1 + (y / x)²).
Proof.
  intros Hx.
  replace (x * x + y * y) with (x² * (1 + (y / x)²))
    by (unfold Rsqr; field; exact Hx).
  rewrite sqrt_mult_alt by apply Rle_0_sqr.
  rewrite sqrt_Rsqr_abs. reflexivity.
Qed.

Lemma sqrt_one_plus_sqr_pos (t : R) : 0 < sqrt (1 + t²).
Proof. apply sqrt_lt_R0. pose proof (Rle_0_sqr t). lra. Qed.

(** The point [(x, y)], unless it is the origin, is at its distance from
    the origin in the direction [Ratan2 y x]. *)
Lemma Ratan2_polar (y x : R) :
  x <> 0 \/ y <> 0 ->
  x = sqrt (x * x + y * y) * cos (Ratan2 y x) /\
  y = sqrt (x * x + y * y) * sin (Ratan2 y x).
Proof.
  intros Hxy. unfold Ratan2.
  pose proof (sqrt_one_plus_sqr_pos (y / x)) as HS.
  destruct (Rlt_dec 0 x) as [Hx|Hx].
  - rewrite hypot_factor, cos_atan, sin_atan by lra.
    rewrite (Rabs_right x) by lra. split; field; lra.
  - destruct (Rlt_dec x 0) as [Hx'|Hx'].
    + assert (Hc : forall a, cos (a - PI) = - cos a).
      { intros a. pose proof (neg_cos (a - PI)) as Hn.
        replace (a - PI + PI) with a in Hn by ring. lra. }
      assert (Hs : forall a, sin (a - PI) = - sin a).
      { intros a. pose proof (neg_sin (a - PI)) as Hn.
        replace (a - PI + PI) with a in Hn by ring. lra. }
      rewrite hypot_factor by lra. rewrite (Rabs_left x) by lra.
      destruct (Rle_dec 0 y); rewrite ?neg_cos, ?neg_sin, ?Hc, ?Hs;
        rewrite cos_atan, sin_atan; split; field; lra.
    + assert (Hx0 : x = 0) by lra. subst x.
      replace (0 * 0 + y * y) with (y * y) by ring.
      destruct (Rlt_dec 0 y) as [Hy|Hy].
      * rewrite cos_PI2, sin_PI2, sqrt_square by lra. lra.
      * destruct (Rlt_dec y 0) as [Hy'|Hy']; [|lra].
        rewrite cos_neg, sin_neg, cos_PI2, sin_PI2.
        replace (y * y) with ((- y) * (- y)) by ring.
        rewrite sqrt_square by lra. lra.
Qed.

(** C8: for a point [p] other than [center], both in one plane of constant
    third coordinate, [circle_angle p center] lies between [-PI] and [PI]
    and [p - center] is [distance p center] times the unit vector of
    that angle. *)
Theorem circle_angle_polar (p center : Vec3 R) :
  vz p = vz center -> p <> center ->
  let theta := circle_angle p center in
  - PI <= theta <= PI /\
  vx p - vx center = distance p center * cos theta /\
  vy p - vy center = distance p center * sin theta.
Proof.
  intros Hz Hne theta.
  assert (Hxy : vx p - vx center <> 0 \/ vy p - vy center <> 0).
  { destruct (Req_dec (vx p - vx center) 0) as [Hx|Hx]; [|left; exact Hx].
    destruct (Req_dec (vy p - vy center) 0) as [Hy|Hy]; [|right; exact Hy].
    exfalso. apply Hne. apply vec3_eq; lra. }
  assert (Hd : distance p center
               = sqrt ((vx p - vx center) * (vx p - vx center)
                       + (vy p - vy center) * (vy p - vy center))).
  { unfold distance. rewrite norm_dot2. f_equal.
    unfold dot2, vsub; to_R. rewrite Hz. ring. }
  unfold theta, circle_angle; to_R. rewrite Hd.
  pose proof (Ratan2_range (vy p - vy center) (vx p - vx center)) as Hr.
  split; [lra|]. apply Ratan2_polar, Hxy.
Qed.

(** C8, witness: the point [(0, 1)] seen from the origin, at angle
    [PI / 2]. *)
Lemma circle_angle_polar_witness :
  let p := mkVec3 0 1 0 in
  let center := mkVec3 0 0 0 in
  (vz p = vz center /\ p <> center) /\
  - PI <= circle_angle p center <= PI /\
  vx p - vx center = distance p center * cos (circle_angle p center) /\
  vy p - vy center = distance p center * sin (circle_angle p center).
Proof.
  intros p center.
  assert (Hne : p <> center).
  { intros Heq. apply (f_equal (@vy R)) in Heq. simpl in Heq. lra. }
  split; [split; [reflexivity | exact Hne]|].
  apply (@circle_angle_polar p center); [reflexivity | exact Hne].
Defined.

(** ** The connector line *)

Lemma connector_end_farther (st : Scene R) (d : Dot) :
  distance (dot_center st d) (origin st)
  <= distance (dot_center st (connector_end st)) (origin st).
Proof.
  unfold connector_end, py_max_by; to_R. unfold Rltb.
  destruct (Rlt_dec (distance (dot_center st DotA) (origin st))
                    (distance (dot_center st DotA_prime) (origin st)))
    as [Hlt|Hge]; destruct d; lra.
Qed.

(** C9: after every frame the connector line starts at the centre of the
    inversion circle and ends at the one of the two dots, [A] as placed by
    the host or [A'] as just recomputed from it, that is farther from that
    centre ([A] when both are as far). *)
Theorem connector_line_to_farther (a : Vec3 R) (st : Scene R) :
  let st' := advance_frame a st in
  A st' = a /\
  A_prime st' = circ_inverse_of a (origin st') (RADIUS st') /\
  line_start (line st') = origin st' /\
  (forall d : Dot,
     distance (dot_center st' d) (origin st')
     <= distance (dot_center st' (line_end (line st'))) (origin st')) /\
  (line_end (line st') = DotA_prime <->
   distance (A st') (origin st') < distance (A_prime st') (origin st')).
Proof.
  intros st'.
  assert (Hl : line st' = mkLine (origin st') (connector_end st')
               /\ A st' = a
               /\ A_prime st'
                  = circ_inverse_of a (origin st') (RADIUS st')).
  { unfold st', advance_frame, run_arc_updater.
    cbn [arc_updater line_updater A_prime_updater set_A set_A_prime
         set_line].
    destruct (arc_updater st) as [[center radius]|]; cbn; repeat split. }
  destruct Hl as (Hl & Ha & Hp). rewrite Hl. cbn [line_start line_end].
  repeat split; try assumption.
  - intros d. apply connector_end_farther.
  - unfold connector_end, py_max_by; to_R. unfold Rltb. cbn [dot_center].
    destruct (Rlt_dec _ _) as [Hlt|Hge]; [intros _; exact Hlt|discriminate].
  - unfold connector_end, py_max_by; to_R. unfold Rltb. cbn [dot_center].
    intros Hlt. destruct (Rlt_dec _ _) as [_|Hge]; [reflexivity|contradiction].
Qed.

(** ** The arc of a trace *)

(** C4 (amended): on every frame played while the trace is running, the
    image curve is an arc on the fitted circle that starts at the polar
    angle [theta] of [A'] about the centre of that circle and sweeps
    through [PI - theta]: it ends at the angle [PI], and its sweep lies
    between [0] and [2 * PI]. *)
Theorem traced_arc_sweep (r : R) (c : R * R) (path : list (Vec3 R))
    (st st' : Scene R) :
  In st' (traced_frames (trace_circle r c path st)) ->
  let fit := fitted_circle st (shifted_circle r (vscale (fst c) RIGHT)
                                              (vscale (snd c) UP)) in
  exists arc : Arc R,
    inverted_arc st' = Some (MArc arc) /\
    arc_center arc = fst fit /\ arc_radius arc = snd fit /\
    A_prime st' = circ_inverse_of (A st') (origin st) (RADIUS st) /\
    start_angle arc = circle_angle (A_prime st') (fst fit) /\
    angle arc = PI - start_angle arc /\
    start_angle arc + angle arc = PI /\
    0 <= angle arc < 2 * PI.
Proof.
  intros Hin fit. rewrite trace_circle_unfold in Hin.
  cbv zeta in Hin. cbn [traced_frames] in Hin.
  set (st0 := tracing_state r c st) in *.
  assert (Hu0 : arc_updater st0 = Some (fst fit, snd fit)).
  { unfold st0. rewrite tracing_state_updater. fold fit.
    destruct fit; reflexivity. }
  pose proof (play_frames_traced path st0 Hu0) as H1.
  assert (Hf : traced_frame (origin st) (RADIUS st) (fst fit) (snd fit) st').
  { rewrite Forall_forall in H1. apply H1, Hin. }
  destruct Hf as (_ & _ & _ & Hp & _ & Harc).
  eexists. split; [exact Harc|]. cbn [arc_center arc_radius start_angle angle].
  to_R.
  pose proof (Ratan2_range (vy (A_prime st') - vy (fst fit))
                           (vx (A_prime st') - vx (fst fit))) as Hrange.
  unfold circle_angle; to_R.
  repeat split; try assumption; try reflexivity; lra.
Qed.

(** C4, witness: the first frame of the first trace of the scene, [A] at
    the rightmost point of the traced circle. *)
Lemma traced_arc_sweep_witness :
  let st := scene_at_first_trace in
  let tr := trace_circle (1 / 2) (-2, 0) [mkVec3 (-3 / 2) 0 0] st in
  let fit := fitted_circle st (shifted_circle (1 / 2) (vscale (-2) RIGHT)
                                              (vscale 0 UP)) in
  exists st' : Scene R,
    In st' (traced_frames tr) /\
    exists arc : Arc R,
      inverted_arc st' = Some (MArc arc) /\
      arc_center arc = fst fit /\ arc_radius arc = snd fit /\
      A_prime st' = circ_inverse_of (A st') (origin st) (RADIUS st) /\
      start_angle arc = circle_angle (A_prime st') (fst fit) /\
      angle arc = PI - start_angle arc /\
      start_angle arc + angle arc = PI /\
      0 <= angle arc < 2 * PI.
Proof.
  intros st tr fit.
  assert (Hin : In (advance_frame (mkVec3 (-3 / 2) 0 0)
                                   (tracing_state (1 / 2) (-2, 0) st))
                   (traced_frames tr)).
  { unfold tr. rewrite trace_circle_unfold. left. reflexivity. }
  eexists. split; [exact Hin|].
  exact (@traced_arc_sweep (1 / 2) (-2, 0) [mkVec3 (-3 / 2) 0 0] st _ Hin).
Defined.

Lemma circ_inverse_of_value (p c q : Vec3 R) (r D : R) :
  dot2 (vsub p c) = D -> 0 < D -> r * r <= IZR scale_cap * D ->
  vx q = vx c + r * r / D * (vx p - vx c) ->
  vy q = vy c + r * r / D * (vy p - vy c) ->
  vz q = vz c + r * r / D * (vz p - vz c) ->
  circ_inverse_of p c r = q.
Proof.
  intros HD Hpos Hcap Hx Hy Hz.
  assert (Hne : p <> c).
  { intros Heq. subst p. unfold dot2, vsub in HD; to_R.
    replace D with 0 in Hpos by (rewrite <- HD; ring). lra. }
  rewrite circ_inverse_of_uncapped, HD.
  - apply vec3_eq; unfold vadd, vscale, vsub; to_R; symmetry; assumption.
  - exact Hne.
  - apply raw_scale_le_cap; [exact Hne|]. rewrite distance_sqr, HD.
    exact Hcap.
Qed.

Lemma Ratan2_second_quadrant (y x : R) :
  0 <= y -> x < 0 -> Ratan2 y x = atan (y / x) + PI.
Proof.
  intros Hy Hx. unfold Ratan2.
  destruct (Rlt_dec 0 x); [lra|]. destruct (Rlt_dec x 0); [|lra].
  destruct (Rle_dec 0 y); [reflexivity|lra].
Qed.

Ltac literal :=
  unfold dot2, vsub, vadd, vscale, scale_cap, ORIGIN, RIGHT, UP, DOWN;
  to_R; lra.

(** The circle fitted at the first trace of the scene is centred at
    [(7/3, 0)]. *)
Lemma first_trace_fit_center :
  fst (fitted_circle scene_at_first_trace
         (shifted_circle (1 / 2) (vscale (-2) RIGHT) (vscale 0 UP)))
  = mkVec3 (7 / 3) 0 0.
Proof.
  unfold fitted_circle, inverted_circle_points, shifted_circle,
    scene_at_first_trace.
  cbn [nth origin RADIUS circle_center circle_radius].
  rewrite (@circ_inverse_of_value _ _ (mkVec3 (-1 / 3) 0 0) _ (9 / 4))
    by literal.
  rewrite (@circ_inverse_of_value _ _ (mkVec3 (1 / 5) (8 / 5) 0) _ (5 / 4))
    by literal.
  rewrite (@circ_inverse_of_value _ _ (mkVec3 (1 / 5) (-8 / 5) 0) _ (5 / 4))
    by literal.
  unfold define_circle, sq; to_R. cbn [fst].
  apply vec3_eq; cbn [vx vy vz]; lra.
Qed.

(** C4, counterexample: at the first trace of the scene, in the frame in
    which [A] is at the top [(-2, 0.5)] of the traced circle, [A'] is at
    [(1/5, 8/5)] and the centre of the fitted circle at [(7/3, 0)]; the
    arc starts at the angle [PI - atan (3/4)] and its sweep is
    [atan (3/4)], less than a quarter turn. *)
Lemma traced_arc_not_half_turn :
  let tr := trace_circle (1 / 2) (-2, 0) [mkVec3 (-2) (1 / 2) 0]
                         scene_at_first_trace in
  exists (st' : Scene R) (arc : Arc R),
    In st' (traced_frames tr) /\
    inverted_arc st' = Some (MArc arc) /\
    angle arc = atan (3 / 4) /\ angle arc < PI / 2 /\ angle arc <> PI.
Proof.
  intros tr. set (st := scene_at_first_trace) in *.
  pose proof (tracing_state_updater (1 / 2) (-2, 0) st) as Hu.
  cbn [fst snd] in Hu.
  set (fit := fitted_circle st _) in Hu.
  assert (Hu' : arc_updater (tracing_state (1 / 2) (-2, 0) st)
                = Some (fst fit, snd fit))
    by (rewrite Hu; destruct fit; reflexivity).
  destruct (advance_frame_traced (mkVec3 (-2) (1 / 2) 0) _ Hu') as [Hf Ha].
  destruct Hf as (_ & _ & _ & Hp & _ & Harc).
  eexists. eexists. split.
  { unfold tr. rewrite trace_circle_unfold. left. reflexivity. }
  split; [exact Harc|]. cbn [start_angle angle].
  assert (Ht : circle_angle
                 (A_prime (advance_frame (mkVec3 (-2) (1 / 2) 0)
                             (tracing_state (1 / 2) (-2, 0) st)))
                 (fst fit) = PI - atan (3 / 4)).
  { rewrite Hp, Ha. unfold fit, st. rewrite first_trace_fit_center.
    cbn [origin RADIUS A tracing_state set_arc_updater set_inverted_arc
         set_circle scene_at_first_trace].
    rewrite (@circ_inverse_of_value _ _ (mkVec3 (1 / 5) (8 / 5) 0) _ (5 / 4))
      by literal.
    unfold circle_angle; to_R.
    rewrite Ratan2_second_quadrant by lra.
    replace ((8 / 5 - 0) / (1 / 5 - 7 / 3)) with (- (3 / 4)) by lra.
    rewrite atan_opp. ring. }
  rewrite Ht. to_R. pose proof (atan_bound (3 / 4)) as Hb.
  pose proof PI_RGT_0. repeat split; lra.
Qed.

(** ** The structure of a trace *)

Lemma shifted_circle_R (r u v : R) :
  shifted_circle r (vscale u RIGHT) (vscale v UP)
  = mkCircle (mkVec3 u v 0) r.
Proof.
  unfold shifted_circle. f_equal.
  apply vec3_eq; unfold vadd, vscale, ORIGIN, RIGHT, UP; to_R; ring.
Qed.

Lemma boundary_samples_offsets (circ : Circle R) :
  boundary_samples circ
  = [ offset_point circ 0; offset_point circ (PI / 2);
      offset_point circ (3 * (PI / 2)) ].
Proof.
  unfold boundary_samples, offset_point.
  rewrite cos_0, sin_0, cos_PI2, sin_PI2, cos_3PI2, sin_3PI2.
  repeat f_equal;
    apply vec3_eq; unfold vadd, vscale, RIGHT, UP, DOWN; to_R; ring.
Qed.

Lemma define_circle_planar (p1 p2 p3 : Vec3 R) :
  planar (fst (define_circle p1 p2 p3)).
Proof. reflexivity. Qed.

(** The structure of a trace, on the attributes of the scene:
    [trace_circle] takes the three boundary points of the traced circle at
    the offsets 0, 90 and 270 degrees, inverts each in the inversion
    circle of the scene as it is when the trace begins and fits one circle
    to the three images; every frame of the trace shows an arc with the
    centre and the radius of that one circle; at the end the updater of
    the arc is detached and [self.inverted_arc] is bound to a full circle
    with that same centre and radius.  What becomes of the arc object in
    the scene is the matter of [trace_circle_leaves_arc]. *)
Theorem trace_circle_structure (r : R) (c : R * R) (path : list (Vec3 R))
    (st : Scene R) :
  let circ := mkCircle (mkVec3 (fst c) (snd c) 0) r in
  let tr := trace_circle r c path st in
  let images :=
    map (fun q => circ_inverse_of q (origin st) (RADIUS st))
        [ offset_point circ 0; offset_point circ (PI / 2);
          offset_point circ (3 * (PI / 2)) ] in
  let fit :=
    define_circle (nth 0 images ORIGIN) (nth 1 images ORIGIN)
                  (nth 2 images ORIGIN) in
  circle (traced_final tr) = Some circ /\
  length (traced_frames tr) = length path /\
  Forall (fun st' : Scene R =>
            arc_updater st' = Some fit /\
            exists arc : Arc R,
              inverted_arc st' = Some (MArc arc) /\
              arc_center arc = fst fit /\ arc_radius arc = snd fit)
         (traced_frames tr) /\
  arc_updater (traced_final tr) = None /\
  inverted_arc (traced_final tr)
  = Some (MCircle (mkCircle (fst fit) (snd fit))).
Proof.
  intros circ tr images fit.
  assert (Hfit : fitted_circle st (shifted_circle r (vscale (fst c) RIGHT)
                                                  (vscale (snd c) UP))
                 = fit).
  { rewrite shifted_circle_R. fold circ. unfold fitted_circle.
    assert (Hpts : inverted_circle_points st circ = images).
    { unfold images. rewrite <- boundary_samples_offsets. reflexivity. }
    rewrite Hpts. reflexivity. }
  unfold tr. rewrite trace_circle_unfold. cbv zeta. rewrite Hfit.
  cbn [traced_frames traced_final circle arc_updater inverted_arc
       set_inverted_arc set_arc_updater].
  set (st0 := tracing_state r c st).
  assert (Hu0 : arc_updater st0 = Some (fst fit, snd fit)).
  { unfold st0. rewrite tracing_state_updater, Hfit.
    destruct fit; reflexivity. }
  destruct (play_frames_fixed path st0) as (_ & _ & _ & Hc).
  split; [|split; [|split; [|split]]].
  - rewrite Hc. unfold st0, tracing_state.
    cbn [circle set_arc_updater set_inverted_arc set_circle].
    rewrite shifted_circle_R. reflexivity.
  - apply play_frames_length.
  - pose proof (play_frames_traced path st0 Hu0) as Hall.
    apply (Forall_impl _ (P := traced_frame (origin st0) (RADIUS st0)
                                             (fst fit) (snd fit)));
      [|exact Hall].
    intros st' (_ & _ & Hu & _ & _ & Harc). split.
    + rewrite Hu. destruct fit; reflexivity.
    + eexists. split; [exact Harc|]. split; reflexivity.
  - reflexivity.
  - rewrite shifted_circle_R. reflexivity.
Qed.

(** * Further properties of the kernel *)

Lemma dot2_vsub_diag (c : Vec3 R) : dot2 (vsub c c) = 0.
Proof. unfold dot2, vsub; to_R. ring. Qed.

Lemma distance_diag (c : Vec3 R) : distance c c = 0.
Proof.
  unfold distance. rewrite norm_dot2, dot2_vsub_diag. apply sqrt_0.
Qed.

Lemma distance_pos_neq (p c : Vec3 R) : 0 < distance p c -> p <> c.
Proof.
  intros Hd Heq. subst p. rewrite distance_diag in Hd. lra.
Qed.

Lemma distance_nonneg (a b : Vec3 R) : 0 <= distance a b.
Proof. unfold distance. apply norm_nonneg. Qed.

(** Below the cap the inverse is at distance [r^2 / n] from the centre. *)
Lemma distance_of_inverse_uncapped (p c : Vec3 R) (r : R) :
  p <> c -> 0 < r ->
  r * r <= IZR scale_cap * (distance p c * distance p c) ->
  distance c (circ_inverse_of p c r) = r * r / distance p c.
Proof.
  intros Hne Hr Hcap.
  pose proof (raw_scale_le_cap Hne Hcap) as Hraw.
  pose proof (norm_vsub_pos Hne) as Hn. fold (distance p c) in Hn.
  pose proof (capped_scale_bounds Hne Hr) as [Hk _].
  rewrite circ_inverse_of_scale, distance_to_scaled by lra.
  rewrite capped_scale_Rmin, Rmin_left by exact Hraw.
  rewrite raw_scale_eq by exact Hne. rewrite <- distance_sqr.
  fold (distance p c). field. lra.
Qed.

(** The cap is as large as the literal says. *)
Lemma cap_gt_1 : 1 < IZR scale_cap.
Proof. apply IZR_lt. reflexivity. Qed.

(** X1: a point at distance [r > 0] from the centre, that is a point of
    the inversion circle itself, is its own inverse. *)
Theorem circ_inverse_of_fixed_point (p c : Vec3 R) (r : R) :
  0 < r -> distance p c = r -> circ_inverse_of p c r = p.
Proof.
  intros Hr Hd.
  assert (Hne : p <> c) by (apply distance_pos_neq; lra).
  assert (HD : dot2 (vsub p c) = r * r)
    by (rewrite <- distance_sqr, Hd; reflexivity).
  pose proof cap_gt_1 as HK.
  rewrite circ_inverse_of_uncapped.
  - rewrite HD. apply vec3_eq; unfold vadd, vscale, vsub; to_R; field; lra.
  - exact Hne.
  - apply raw_scale_le_cap; [exact Hne|]. rewrite Hd. nra.
Qed.

(** X1, witness: the point [(0, 2)] of the circle of radius 2 around the
    origin. *)
Lemma circ_inverse_of_fixed_point_witness :
  let p := mkVec3 0 2 0 in
  let c := mkVec3 0 0 0 in
  (0 < 2 /\ distance p c = 2) /\ circ_inverse_of p c 2 = p.
Proof.
  intros p c.
  assert (Hd : distance p c = 2).
  { unfold distance. rewrite norm_dot2.
    replace (dot2 (vsub p c)) with (2 * 2)
      by (unfold dot2, vsub, p, c; to_R; ring).
    apply sqrt_square. lra. }
  assert (Hr : 0 < 2) by lra.
  split; [split; assumption|].
  exact (@circ_inverse_of_fixed_point p c 2 Hr Hd).
Defined.

(** X2: a point strictly outside the inversion circle is never capped: its
    inverse is at distance [r^2 / n] from the centre, strictly inside the
    circle. *)
Theorem circ_inverse_of_outside (p c : Vec3 R) (r : R) :
  0 < r -> r < distance p c ->
  distance c (circ_inverse_of p c r) = r * r / distance p c /\
  0 < distance c (circ_inverse_of p c r) < r.
Proof.
  intros Hr Hd.
  assert (Hne : p <> c) by (apply distance_pos_neq; lra).
  pose proof cap_gt_1 as HK.
  assert (Hcap : r * r <= IZR scale_cap * (distance p c * distance p c))
    by nra.
  rewrite (distance_of_inverse_uncapped Hne Hr Hcap).
  split; [reflexivity|]. split.
  - apply Rdiv_lt_0_compat; nra.
  - apply (Rmult_lt_reg_r (distance p c)); [lra|].
    unfold Rdiv. rewrite Rmult_assoc, Rinv_l by lra. nra.
Qed.

(** X2, witness: [(4, 0)] outside the circle of radius 2 around the
    origin. *)
Lemma circ_inverse_of_outside_witness :
  let p := mkVec3 4 0 0 in
  let c := mkVec3 0 0 0 in
  (0 < 2 /\ 2 < distance p c) /\
  distance c (circ_inverse_of p c 2) = 2 * 2 / distance p c /\
  0 < distance c (circ_inverse_of p c 2) < 2.
Proof.
  intros p c.
  assert (Hd : distance p c = 4).
  { unfold distance. rewrite norm_dot2.
    replace (dot2 (vsub p c)) with (4 * 4)
      by (unfold dot2, vsub, p, c; to_R; ring).
    apply sqrt_square. lra. }
  assert (Hr : 0 < 2) by lra.
  assert (Hlt : 2 < distance p c) by (rewrite Hd; lra).
  split; [split; assumption|].
  exact (@circ_inverse_of_outside p c 2 Hr Hlt).
Defined.

(** X3: a point strictly inside the inversion circle, other than the
    centre and not so near to it that the cap is reached, has its inverse
    at distance [r^2 / n], strictly outside the circle. *)
Theorem circ_inverse_of_inside (p c : Vec3 R) (r : R) :
  0 < distance p c < r ->
  r * r <= IZR scale_cap * (distance p c * distance p c) ->
  distance c (circ_inverse_of p c r) = r * r / distance p c /\
  r < distance c (circ_inverse_of p c r).
Proof.
  intros [Hd Hlt] Hcap.
  assert (Hne : p <> c) by (apply distance_pos_neq; lra).
  assert (Hr : 0 < r) by lra.
  rewrite (distance_of_inverse_uncapped Hne Hr Hcap).
  split; [reflexivity|].
  apply (Rmult_lt_reg_r (distance p c)); [lra|].
  unfold Rdiv. rewrite Rmult_assoc, Rinv_l by lra. nra.
Qed.

(** X3, witness: [(1, 0)] inside the circle of radius 2 around the
    origin. *)
Lemma circ_inverse_of_inside_witness :
  let p := mkVec3 1 0 0 in
  let c := mkVec3 0 0 0 in
  (0 < distance p c < 2 /\
   2 * 2 <= IZR scale_cap * (distance p c * distance p c)) /\
  distance c (circ_inverse_of p c 2) = 2 * 2 / distance p c /\
  2 < distance c (circ_inverse_of p c 2).
Proof.
  intros p c.
  assert (Hd : distance p c = 1).
  { unfold distance. rewrite norm_dot2.
    replace (dot2 (vsub p c)) with (1 * 1)
      by (unfold dot2, vsub, p, c; to_R; ring).
    apply sqrt_square. lra. }
  assert (Hin : 0 < distance p c < 2) by (rewrite Hd; lra).
  assert (Hcap : 2 * 2 <= IZR scale_cap * (distance p c * distance p c))
    by (rewrite Hd; unfold scale_cap; lra).
  split; [split; assumption|].
  exact (@circ_inverse_of_inside p c 2 Hin Hcap).
Defined.

(** X4: nearer to the centre than [r / sqrt cap] the scale factor is the
    cap itself: the inverse is [c + cap * (p - c)], at distance [cap * n]
    from the centre, and the product of the two distances stays below
    [r^2]. *)
Theorem circ_inverse_of_saturated (p c : Vec3 R) (r : R) :
  p <> c -> 0 < r ->
  IZR scale_cap * (distance p c * distance p c) < r * r ->
  circ_inverse_of p c r = vadd c (vscale (IZR scale_cap) (vsub p c)) /\
  distance c (circ_inverse_of p c r) = IZR scale_cap * distance p c /\
  distance c p * distance c (circ_inverse_of p c r) < r * r.
Proof.
  intros Hne Hr Hcap.
  pose proof (cap_lt_raw_scale Hne Hcap) as Hraw.
  pose proof cap_pos as HK.
  assert (Hres : circ_inverse_of p c r
                 = vadd c (vscale (IZR scale_cap) (vsub p c)))
    by (apply circ_inverse_of_capped; lra).
  assert (Hd : distance c (circ_inverse_of p c r)
               = IZR scale_cap * distance p c).
  { rewrite Hres, distance_to_scaled by lra. reflexivity. }
  repeat split; try assumption.
  rewrite Hd, (distance_sym c p). nra.
Qed.

(** X4, witness: radius 1 and a point at distance [2^-40] from the
    centre. *)
Lemma circ_inverse_of_saturated_witness :
  let p := mkVec3 (/ 2 ^ 40) 0 0 in
  let c := mkVec3 0 0 0 in
  (p <> c /\ 0 < 1 /\
   IZR scale_cap * (distance p c * distance p c) < 1 * 1) /\
  circ_inverse_of p c 1 = vadd c (vscale (IZR scale_cap) (vsub p c)) /\
  distance c (circ_inverse_of p c 1) = IZR scale_cap * distance p c /\
  distance c p * distance c (circ_inverse_of p c 1) < 1 * 1.
Proof.
  intros p c.
  assert (Hne : p <> c) by (apply vec3_neq_x; simpl; lra).
  assert (HD : distance p c * distance p c = / 2 ^ 80).
  { rewrite distance_sqr. unfold dot2, vsub, p, c; to_R. field. }
  assert (Hr : 0 < 1) by lra.
  assert (Hcap : IZR scale_cap * (distance p c * distance p c) < 1 * 1)
    by (rewrite HD; unfold scale_cap; lra).
  split; [repeat split; assumption|].
  exact (@circ_inverse_of_saturated p c 1 Hne Hr Hcap).
Defined.

(** X5: inversion commutes with translations: for a point other than the
    centre, moving the point and the centre by the same vector moves the
    inverse by that vector. *)
Theorem circ_inverse_of_translate (p c t : Vec3 R) (r : R) :
  p <> c ->
  circ_inverse_of (vadd p t) (vadd c t) r = vadd (circ_inverse_of p c r) t.
Proof.
  intros _.
  assert (Hd : vsub (vadd p t) (vadd c t) = vsub p c)
    by (apply vec3_eq; unfold vadd, vsub; to_R; ring).
  rewrite !circ_inverse_of_scale. unfold capped_scale, raw_scale.
  rewrite Hd.
  apply vec3_eq; unfold vadd, vscale; to_R; ring.
Qed.

(** X5, witness: [(1, 0)] and the origin, moved three units to the
    left. *)
Lemma circ_inverse_of_translate_witness :
  let p := mkVec3 1 0 0 in
  let c := mkVec3 0 0 0 in
  let t := mkVec3 (-3) 0 0 in
  p <> c /\
  circ_inverse_of (vadd p t) (vadd c t) 2 = vadd (circ_inverse_of p c 2) t.
Proof.
  intros p c t.
  assert (Hne : p <> c) by (apply vec3_neq_x; simpl; lra).
  split; [exact Hne|].
  exact (@circ_inverse_of_translate p c t 2 Hne).
Defined.

(** The inequality of Cauchy and Schwarz for two arrays. *)
Lemma dot_le_norms (u v : Vec3 R) :
  vx u * vx v + vy u * vy v + vz u * vz v <= norm u * norm v.
Proof.
  pose proof (norm_nonneg u) as Hu. pose proof (norm_nonneg v) as Hv.
  pose proof (norm_sqr u) as Eu. pose proof (norm_sqr v) as Ev.
  unfold dot2 in Eu, Ev.
  set (d := vx u * vx v + vy u * vy v + vz u * vz v).
  destruct (Rle_lt_dec d 0) as [Hd|Hd]; [nra|].
  assert (Hsq : d * d <= (norm u * norm v) * (norm u * norm v)).
  { replace ((norm u * norm v) * (norm u * norm v))
      with ((norm u * norm u) * (norm v * norm v)) by ring.
    rewrite Eu, Ev. unfold d. clear.
    pose proof (Rle_0_sqr (vx u * vy v - vy u * vx v)) as H1.
    pose proof (Rle_0_sqr (vx u * vz v - vz u * vx v)) as H2.
    pose proof (Rle_0_sqr (vy u * vz v - vz u * vy v)) as H3.
    replace ((vx u * vx u + vy u * vy u + vz u * vz u)
             * (vx v * vx v + vy v * vy v + vz v * vz v))
      with ((vx u * vx v + vy u * vy v + vz u * vz v)
            * (vx u * vx v + vy u * vy v + vz u * vz v)
            + ((vx u * vy v - vy u * vx v)² + (vx u * vz v - vz u * vx v)²
               + (vy u * vz v - vz u * vy v)²))
      by (unfold Rsqr; ring).
    lra. }
  apply Rsqr_incr_0_var; [exact Hsq|]. apply Rmult_le_pos; assumption.
Qed.

Lemma distance_triangle (a b c : Vec3 R) :
  distance a c <= distance a b + distance b c.
Proof.
  pose proof (distance_nonneg a b) as Hab.
  pose proof (distance_nonneg b c) as Hbc.
  pose proof (distance_nonneg a c) as Hac.
  pose proof (distance_sqr a b) as Eab.
  pose proof (distance_sqr b c) as Ebc.
  pose proof (distance_sqr a c) as Eac.
  pose proof (dot_le_norms (vsub a b) (vsub b c)) as Hcs.
  fold (distance a b) in Hcs. fold (distance b c) in Hcs.
  unfold dot2, vsub in *; to_R.
  apply Rnot_lt_le. intros Hlt. nra.
Qed.

(** X6: [distance] is a metric on arrays: it is nonnegative, symmetric,
    zero exactly between equal arrays, and satisfies the triangle
    inequality. *)
Theorem distance_metric (a b c : Vec3 R) :
  0 <= distance a b /\
  distance a b = distance b a /\
  (distance a b = 0 <-> a = b) /\
  distance a c <= distance a b + distance b c.
Proof.
  split; [apply distance_nonneg|]. split; [apply distance_sym|]. split.
  - split.
    + intros Hd. destruct (Req_dec (dot2 (vsub a b)) 0) as [H0|H0].
      * unfold dot2, vsub in H0; to_R.
        pose proof (Rle_0_sqr (vx a - vx b)) as Hx.
        pose proof (Rle_0_sqr (vy a - vy b)) as Hy.
        pose proof (Rle_0_sqr (vz a - vz b)) as Hz.
        unfold Rsqr in Hx, Hy, Hz.
        apply vec3_eq; apply Rminus_diag_uniq, Rsqr_0_uniq; unfold Rsqr;
          lra.
      * exfalso. apply H0. rewrite <- distance_sqr, Hd. ring.
    + intros Heq. subst b. apply distance_diag.
  - apply distance_triangle.
Qed.

(** ** Further properties of the fitted circle *)

Lemma define_circle_swap12 (p1 p2 p3 : Vec3 R) :
  define_circle p2 p1 p3 = define_circle p1 p2 p3.
Proof.
  unfold define_circle, sq; to_R.
  set (a := (vx p2 - vx p3) * (vx p2 - vx p3)
            + (vy p2 - vy p3) * (vy p2 - vy p3)).
  set (b := (vx p3 - vx p1) * (vx p3 - vx p1)
            + (vy p3 - vy p1) * (vy p3 - vy p1)).
  set (c := (vx p1 - vx p2) * (vx p1 - vx p2)
            + (vy p1 - vy p2) * (vy p1 - vy p2)).
  replace ((vx p2 - vx p1) * (vx p2 - vx p1)
           + (vy p2 - vy p1) * (vy p2 - vy p1)) with c
    by (unfold c; ring).
  replace ((vx p1 - vx p3) * (vx p1 - vx p3)
           + (vy p1 - vy p3) * (vy p1 - vy p3)) with b
    by (unfold b; ring).
  replace ((vx p3 - vx p2) * (vx p3 - vx p2)
           + (vy p3 - vy p2) * (vy p3 - vy p2)) with a
    by (unfold a; ring).
  f_equal.
  - apply vec3_eq; cbn [vx vy vz]; try reflexivity;
      unfold Rdiv; f_equal; try ring; f_equal; ring.
  - unfold Rdiv. f_equal; [ring|]. do 2 f_equal. ring.
Qed.

Lemma define_circle_swap23 (p1 p2 p3 : Vec3 R) :
  define_circle p1 p3 p2 = define_circle p1 p2 p3.
Proof.
  unfold define_circle, sq; to_R.
  set (a := (vx p2 - vx p3) * (vx p2 - vx p3)
            + (vy p2 - vy p3) * (vy p2 - vy p3)).
  set (b := (vx p3 - vx p1) * (vx p3 - vx p1)
            + (vy p3 - vy p1) * (vy p3 - vy p1)).
  set (c := (vx p1 - vx p2) * (vx p1 - vx p2)
            + (vy p1 - vy p2) * (vy p1 - vy p2)).
  replace ((vx p1 - vx p3) * (vx p1 - vx p3)
           + (vy p1 - vy p3) * (vy p1 - vy p3)) with b
    by (unfold b; ring).
  replace ((vx p3 - vx p2) * (vx p3 - vx p2)
           + (vy p3 - vy p2) * (vy p3 - vy p2)) with a
    by (unfold a; ring).
  replace ((vx p2 - vx p1) * (vx p2 - vx p1)
           + (vy p2 - vy p1) * (vy p2 - vy p1)) with c
    by (unfold c; ring).
  f_equal.
  - apply vec3_eq; cbn [vx vy vz]; try reflexivity;
      unfold Rdiv; f_equal; try ring; f_equal; ring.
  - unfold Rdiv. f_equal; [ring|]. do 2 f_equal. ring.
Qed.

(** X7: for three points that are not collinear, the centre and the
    radius returned by [define_circle] do not depend on the order in
    which the points are given. *)
Theorem define_circle_permutation (p1 p2 p3 : Vec3 R) :
  ~ collinear p1 p2 p3 ->
  define_circle p2 p1 p3 = define_circle p1 p2 p3 /\
  define_circle p1 p3 p2 = define_circle p1 p2 p3 /\
  define_circle p3 p2 p1 = define_circle p1 p2 p3 /\
  define_circle p2 p3 p1 = define_circle p1 p2 p3 /\
  define_circle p3 p1 p2 = define_circle p1 p2 p3.
Proof.
  intros _. repeat split.
  - apply define_circle_swap12.
  - apply define_circle_swap23.
  - rewrite (define_circle_swap12 p2 p3 p1), (define_circle_swap23 p2 p1 p3).
    apply define_circle_swap12.
  - rewrite (define_circle_swap23 p2 p1 p3). apply define_circle_swap12.
  - rewrite (define_circle_swap12 p1 p3 p2). apply define_circle_swap23.
Qed.

(** X7, witness: the right triangle [(0,0)], [(1,0)], [(0,1)]. *)
Lemma define_circle_permutation_witness :
  let p1 := mkVec3 0 0 0 in
  let p2 := mkVec3 1 0 0 in
  let p3 := mkVec3 0 1 0 in
  ~ collinear p1 p2 p3 /\
  define_circle p2 p1 p3 = define_circle p1 p2 p3 /\
  define_circle p1 p3 p2 = define_circle p1 p2 p3 /\
  define_circle p3 p2 p1 = define_circle p1 p2 p3 /\
  define_circle p2 p3 p1 = define_circle p1 p2 p3 /\
  define_circle p3 p1 p2 = define_circle p1 p2 p3.
Proof.
  intros p1 p2 p3.
  assert (Hnc : ~ collinear p1 p2 p3).
  { unfold collinear, cross2, p1, p2, p3; simpl. lra. }
  split; [exact Hnc|].
  exact (@define_circle_permutation p1 p2 p3 Hnc).
Defined.

(** Two points of the plane at equal distances from each of three points
    that are not collinear coincide. *)
Lemma equidistant_unique (q c p1 p2 p3 : Vec3 R) :
  planar q -> planar c ->
  ~ collinear p1 p2 p3 ->
  vx (vsub q p1) * vx (vsub q p1) + vy (vsub q p1) * vy (vsub q p1)
  = vx (vsub q p2) * vx (vsub q p2) + vy (vsub q p2) * vy (vsub q p2) ->
  vx (vsub q p1) * vx (vsub q p1) + vy (vsub q p1) * vy (vsub q p1)
  = vx (vsub q p3) * vx (vsub q p3) + vy (vsub q p3) * vy (vsub q p3) ->
  vx (vsub c p1) * vx (vsub c p1) + vy (vsub c p1) * vy (vsub c p1)
  = vx (vsub c p2) * vx (vsub c p2) + vy (vsub c p2) * vy (vsub c p2) ->
  vx (vsub c p1) * vx (vsub c p1) + vy (vsub c p1) * vy (vsub c p1)
  = vx (vsub c p3) * vx (vsub c p3) + vy (vsub c p3) * vy (vsub c p3) ->
  q = c.
Proof.
  unfold planar, collinear, cross2, vsub; to_R.
  intros Hq Hc Hnc Q2 Q3 C2 C3.
  set (dx := vx q - vx c). set (dy := vy q - vy c).
  assert (L2 : dx * (vx p2 - vx p1) + dy * (vy p2 - vy p1) = 0)
    by (unfold dx, dy; lra).
  assert (L3 : dx * (vx p3 - vx p1) + dy * (vy p3 - vy p1) = 0)
    by (unfold dx, dy; lra).
  set (k := (vx p2 - vx p1) * (vy p3 - vy p1)
            - (vx p3 - vx p1) * (vy p2 - vy p1)) in *.
  assert (Hx : dx * k = 0).
  { replace (dx * k)
      with ((vy p3 - vy p1)
            * (dx * (vx p2 - vx p1) + dy * (vy p2 - vy p1))
            - (vy p2 - vy p1)
              * (dx * (vx p3 - vx p1) + dy * (vy p3 - vy p1)))
      by (unfold k; ring).
    rewrite L2, L3. ring. }
  assert (Hy : dy * k = 0).
  { replace (dy * k)
      with ((vx p2 - vx p1)
            * (dx * (vx p3 - vx p1) + dy * (vy p3 - vy p1))
            - (vx p3 - vx p1)
              * (dx * (vx p2 - vx p1) + dy * (vy p2 - vy p1)))
      by (unfold k; ring).
    rewrite L2, L3. ring. }
  apply Rmult_integral in Hx. apply Rmult_integral in Hy.
  destruct Hx as [Hx|Hx]; [|contradiction].
  destruct Hy as [Hy|Hy]; [|contradiction].
  apply vec3_eq; unfold dx, dy in *; lra.
Qed.

Lemma planar_distance_sqr (q p : Vec3 R) :
  planar q -> planar p ->
  distance q p * distance q p
  = vx (vsub q p) * vx (vsub q p) + vy (vsub q p) * vy (vsub q p).
Proof.
  unfold planar. intros Hq Hp. rewrite distance_sqr.
  unfold dot2, vsub; to_R. rewrite Hq, Hp. ring.
Qed.

Lemma circumcenter_unique (p1 p2 p3 q : Vec3 R) :
  planar p1 -> planar p2 -> planar p3 -> planar q ->
  ~ collinear p1 p2 p3 ->
  distance q p1 = distance q p2 -> distance q p1 = distance q p3 ->
  q = fst (define_circle p1 p2 p3) /\
  distance q p1 = snd (define_circle p1 p2 p3).
Proof.
  intros Hz1 Hz2 Hz3 Hq Hnc E2 E3.
  pose proof (define_circle_center_dot2 Hnc Hz1 Hz2 Hz3) as Hd.
  pose proof (define_circle_radius Hnc) as Hr.
  destruct (sides2 p1 p2 p3) as [[a2 b2] c2]. cbv zeta in Hd.
  destruct Hd as (Hd1 & Hd2 & Hd3).
  set (center := fst (define_circle p1 p2 p3)) in *.
  assert (Hc : planar center) by apply define_circle_planar.
  assert (Heq : q = center).
  { apply (@equidistant_unique q center p1 p2 p3); try assumption.
    - rewrite <- !planar_distance_sqr by assumption. rewrite <- E2.
      reflexivity.
    - rewrite <- !planar_distance_sqr by assumption. rewrite <- E3.
      reflexivity.
    - rewrite <- !planar_distance_sqr, !distance_sqr by assumption.
      rewrite Hd1, Hd2. reflexivity.
    - rewrite <- !planar_distance_sqr, !distance_sqr by assumption.
      rewrite Hd1, Hd3. reflexivity. }
  split; [exact Heq|].
  rewrite Heq, Hr. unfold distance. rewrite norm_dot2, Hd1. reflexivity.
Qed.

(** X8: the circle through three points of the plane that are not
    collinear is unique: every point of the plane at one and the same
    distance from the three is the centre returned by [define_circle]. *)
Theorem define_circle_unique (p1 p2 p3 q : Vec3 R) :
  planar p1 -> planar p2 -> planar p3 -> planar q ->
  ~ collinear p1 p2 p3 ->
  distance q p1 = distance q p2 -> distance q p1 = distance q p3 ->
  q = fst (define_circle p1 p2 p3) /\
  distance q p1 = snd (define_circle p1 p2 p3).
Proof.
  intros Hz1 Hz2 Hz3 Hq Hnc E2 E3.
  apply circumcenter_unique; assumption.
Qed.

(** X8, witness: the point [(1/2, 1/2)] and the right triangle [(0,0)],
    [(1,0)], [(0,1)]. *)
Lemma define_circle_unique_witness :
  let p1 := mkVec3 0 0 0 in
  let p2 := mkVec3 1 0 0 in
  let p3 := mkVec3 0 1 0 in
  let q := mkVec3 (1 / 2) (1 / 2) 0 in
  (~ collinear p1 p2 p3 /\
   distance q p1 = distance q p2 /\ distance q p1 = distance q p3) /\
  q = fst (define_circle p1 p2 p3) /\
  distance q p1 = snd (define_circle p1 p2 p3).
Proof.
  intros p1 p2 p3 q.
  assert (Hnc : ~ collinear p1 p2 p3).
  { unfold collinear, cross2, p1, p2, p3; simpl. lra. }
  assert (E2 : distance q p1 = distance q p2).
  { unfold distance. rewrite !norm_dot2. f_equal.
    unfold dot2, vsub, q, p1, p2; to_R. lra. }
  assert (E3 : distance q p1 = distance q p3).
  { unfold distance. rewrite !norm_dot2. f_equal.
    unfold dot2, vsub, q, p1, p3; to_R. lra. }
  split; [repeat split; assumption|].
  exact (@define_circle_unique p1 p2 p3 q
           eq_refl eq_refl eq_refl eq_refl Hnc E2 E3).
Defined.

(** ** Further properties of the polar angle and of the frames *)

(** The angle of a point of the plane does not change when both
    coordinates are multiplied by the same positive factor. *)
Lemma Ratan2_scale (k y x : R) : 0 < k -> Ratan2 (k * y) (k * x) = Ratan2 y x.
Proof.
  intros Hk. unfold Ratan2.
  assert (Hq : x <> 0 -> k * y / (k * x) = y / x)
    by (intros Hx; field; lra).
  destruct (Rlt_dec 0 x) as [Hx|Hx].
  - destruct (Rlt_dec 0 (k * x)) as [_|Hkx]; [|exfalso; nra].
    rewrite Hq by lra. reflexivity.
  - destruct (Rlt_dec 0 (k * x)) as [Hkx|_]; [exfalso; nra|].
    destruct (Rlt_dec x 0) as [Hx'|Hx'].
    + destruct (Rlt_dec (k * x) 0) as [_|Hkx]; [|exfalso; nra].
      rewrite Hq by lra.
      destruct (Rle_dec 0 y) as [Hy|Hy];
        destruct (Rle_dec 0 (k * y)) as [Hky|Hky];
        try reflexivity; exfalso; nra.
    + destruct (Rlt_dec (k * x) 0) as [Hkx|_]; [exfalso; nra|].
      destruct (Rlt_dec 0 y) as [Hy|Hy];
        destruct (Rlt_dec 0 (k * y)) as [Hky|Hky];
        try reflexivity; try (exfalso; nra).
      destruct (Rlt_dec y 0) as [Hy'|Hy'];
        destruct (Rlt_dec (k * y) 0) as [Hky'|Hky'];
        try reflexivity; exfalso; nra.
Qed.

(** X9: a point other than the centre and its inverse are seen from the
    centre under the same polar angle, capped or not. *)
Theorem circ_inverse_of_same_angle (p c : Vec3 R) (r : R) :
  p <> c -> 0 < r ->
  circle_angle (circ_inverse_of p c r) c = circle_angle p c.
Proof.
  intros Hne Hr.
  pose proof (capped_scale_bounds Hne Hr) as [Hk _].
  rewrite circ_inverse_of_scale. unfold circle_angle; to_R.
  unfold vadd, vscale, vsub; to_R.
  replace (vy c + capped_scale p c r * (vy p - vy c) - vy c)
    with (capped_scale p c r * (vy p - vy c)) by ring.
  replace (vx c + capped_scale p c r * (vx p - vx c) - vx c)
    with (capped_scale p c r * (vx p - vx c)) by ring.
  apply Ratan2_scale, Hk.
Qed.

(** X9, witness: [(1, 1)] in the circle of radius 2 around the origin. *)
Lemma circ_inverse_of_same_angle_witness :
  let p := mkVec3 1 1 0 in
  let c := mkVec3 0 0 0 in
  (p <> c /\ 0 < 2) /\
  circle_angle (circ_inverse_of p c 2) c = circle_angle p c.
Proof.
  intros p c.
  assert (Hne : p <> c) by (apply vec3_neq_x; simpl; lra).
  assert (Hr : 0 < 2) by lra.
  split; [split; assumption|].
  exact (@circ_inverse_of_same_angle p c 2 Hne Hr).
Defined.

(** What a frame leaves in the scene, whether an arc updater is attached
    or not. *)
Lemma advance_frame_dependents (a : Vec3 R) (st : Scene R) :
  let st' := advance_frame a st in
  origin st' = origin st /\ RADIUS st' = RADIUS st /\ A st' = a /\
  A_prime st' = circ_inverse_of a (origin st) (RADIUS st) /\
  line st' = mkLine (origin st) (connector_end st').
Proof.
  unfold advance_frame, run_arc_updater.
  cbn [arc_updater line_updater A_prime_updater set_A set_A_prime set_line].
  destruct (arc_updater st) as [[center radius]|]; cbn; repeat split.
Qed.

(** X11: with a positive radius and [A] anywhere but at the centre, the
    connector line of a frame ends at [A'] exactly when [A] is strictly
    inside the inversion circle, and at [A] when [A] is on or outside
    it; the cap does not change that. *)
Theorem connector_end_inside (a : Vec3 R) (st : Scene R) :
  0 < RADIUS st -> a <> origin st ->
  (line_end (line (advance_frame a st)) = DotA_prime
   <-> distance a (origin st) < RADIUS st) /\
  (line_end (line (advance_frame a st)) = DotA
   <-> RADIUS st <= distance a (origin st)).
Proof.
  intros Hr Hne.
  destruct (advance_frame_dependents a st) as (Ho & _ & Ha & Hp & Hl).
  set (st' := advance_frame a st) in *.
  set (o := origin st) in *. set (r := RADIUS st) in *.
  pose proof (capped_scale_bounds Hne Hr) as [Hk _].
  pose proof (norm_vsub_pos Hne) as Hn. fold (distance a o) in Hn.
  assert (Hd' : distance (A_prime st') o
                = capped_scale a o r * distance a o).
  { rewrite Hp, distance_sym, circ_inverse_of_scale.
    rewrite distance_to_scaled by lra. reflexivity. }
  assert (Hlt : distance (A st') o < distance (A_prime st') o
                <-> distance a o < r).
  { rewrite Hd', Ha, capped_scale_Rmin, raw_scale_eq by exact Hne.
    rewrite <- distance_sqr. pose proof cap_gt_1 as HK.
    set (n := distance a o) in *.
    assert (Hraw : r * r / (n * n) = (r / n) * (r / n))
      by (field; lra).
    assert (Hq : 0 < r / n) by (apply Rdiv_lt_0_compat; lra).
    assert (Hrn : r = (r / n) * n) by (field; lra).
    rewrite Hraw. set (q := r / n) in *. clearbody q.
    unfold Rmin. destruct (Rle_dec (q * q) (IZR scale_cap)); split;
      intros Hlt; nra. }
  rewrite Hl. cbn [line_end].
  unfold connector_end, py_max_by; to_R. unfold Rltb. cbn [dot_center].
  rewrite Ho. fold o.
  destruct (Rlt_dec (distance (A st') o) (distance (A_prime st') o))
    as [H1|H1].
  - split; split; intros H2; try reflexivity; try discriminate.
    + apply Hlt, H1.
    + apply Hlt in H1. lra.
  - split; split; intros H2; try reflexivity; try discriminate.
    + exfalso. apply H1, Hlt, H2.
    + apply Rnot_lt_le. intros H3. apply H1, Hlt, H3.
Qed.

(** X11, witness: the scene at its first trace, [A] at [(-1.5, 0)] and
    the centre at [(-3, 0)]. *)
Lemma connector_end_inside_witness :
  let st := scene_at_first_trace in
  let a := mkVec3 (-3 / 2) 0 0 in
  (0 < RADIUS st /\ a <> origin st) /\
  (line_end (line (advance_frame a st)) = DotA_prime
   <-> distance a (origin st) < RADIUS st) /\
  (line_end (line (advance_frame a st)) = DotA
   <-> RADIUS st <= distance a (origin st)).
Proof.
  intros st a.
  assert (Hr : 0 < RADIUS st) by (simpl; lra).
  assert (Hne : a <> origin st) by (apply vec3_neq_x; simpl; lra).
  split; [split; assumption|].
  exact (@connector_end_inside a st Hr Hne).
Defined.

(** ** The image of the traced circle *)

(** A point of a circle that does not pass through [o] is not [o]. *)
Lemma on_circle_neq_center (o m q : Vec3 R) (rho : R) :
  circle_power o m rho <> 0 -> distance q m = rho -> q <> o.
Proof.
  intros Hk Hd Heq. subst q. apply Hk. unfold circle_power.
  rewrite <- Hd, distance_sqr.
  unfold dot2, vsub; to_R. ring.
Qed.

(** The inverse of a point of the circle [(m, rho)] is on the image
    circle: the algebra, on squared distances. *)
Lemma inverse_on_image_dot2 (o m q : Vec3 R) (rad rho : R) :
  planar o -> planar m -> planar q ->
  circle_power o m rho <> 0 ->
  distance q m = rho ->
  rad * rad <= IZR scale_cap * (distance q o * distance q o) ->
  dot2 (vsub (circ_inverse_of q o rad) (image_center o rad m rho))
  = (rad * rad * rho / circle_power o m rho)
    * (rad * rad * rho / circle_power o m rho).
Proof.
  intros Ho Hm Hq Hk Hd Hcap.
  pose proof (on_circle_neq_center Hk Hd) as Hne.
  pose proof (dot2_vsub_pos Hne) as HU.
  pose proof (raw_scale_le_cap Hne Hcap) as Hraw.
  rewrite (circ_inverse_of_uncapped Hne Hraw).
  assert (HD : dot2 (vsub q m) = rho * rho)
    by (rewrite <- distance_sqr, Hd; reflexivity).
  unfold planar in Ho, Hm, Hq.
  unfold image_center, circle_power, dot2, vadd, vscale, vsub in *; to_R.
  rewrite Ho, Hm, Hq in *.
  set (ux := vx q - vx o) in *. set (uy := vy q - vy o) in *.
  set (wx := vx m - vx o) in *. set (wy := vy m - vy o) in *.
  replace (vx q - vx m) with (ux - wx) in HD by (unfold ux, wx; ring).
  replace (vy q - vy m) with (uy - wy) in HD by (unfold uy, wy; ring).
  replace (0 - 0) with 0 in * by ring.
  set (U := ux * ux + uy * uy + 0 * 0) in *.
  set (k := wx * wx + wy * wy + 0 * 0 - rho * rho) in *.
  replace (vx o + rad * rad / U * ux - (vx o + rad * rad / k * wx))
    with (rad * rad * (ux / U - wx / k)) by (field; split; lra).
  replace (vy o + rad * rad / U * uy - (vy o + rad * rad / k * wy))
    with (rad * rad * (uy / U - wy / k)) by (field; split; lra).
  replace (0 + rad * rad / U * 0 - (0 + rad * rad / k * 0)) with 0
    by (field; split; lra).
  assert (E : (ux / U - wx / k) * (ux / U - wx / k)
              + (uy / U - wy / k) * (uy / U - wy / k)
              = rho * rho / (k * k)
                + ((ux - wx) * (ux - wx) + (uy - wy) * (uy - wy) + 0 * 0
                   - rho * rho) / (U * k)).
  { unfold U, k. field.
    repeat split; try (unfold U in HU; lra);
      intros H0; apply Hk; unfold k; lra. }
  replace (rad * rad * (ux / U - wx / k) * (rad * rad * (ux / U - wx / k))
           + rad * rad * (uy / U - wy / k)
             * (rad * rad * (uy / U - wy / k)) + 0 * 0)
    with (rad * rad * (rad * rad)
          * ((ux / U - wx / k) * (ux / U - wx / k)
             + (uy / U - wy / k) * (uy / U - wy / k))) by ring.
  rewrite E, HD. field. split; [exact Hk | lra].
Qed.

Lemma circ_inverse_of_planar (q o : Vec3 R) (rad : R) :
  planar q -> planar o -> planar (circ_inverse_of q o rad).
Proof.
  unfold planar. intros Hq Ho. rewrite circ_inverse_of_scale.
  unfold vadd, vscale, vsub; to_R. rewrite Hq, Ho. ring.
Qed.

Lemma image_center_planar (o m : Vec3 R) (rad rho : R) :
  planar o -> planar m -> planar (image_center o rad m rho).
Proof.
  unfold planar. intros Ho Hm.
  unfold image_center, vadd, vscale, vsub; to_R. rewrite Ho, Hm. ring.
Qed.

(** The inverse of a point of the circle [(m, rho)] is at the distance
    [image_radius] from [image_center]. *)
Lemma inverse_on_image_circle (o m q : Vec3 R) (rad rho : R) :
  planar o -> planar m -> planar q ->
  circle_power o m rho <> 0 ->
  distance q m = rho ->
  rad * rad <= IZR scale_cap * (distance q o * distance q o) ->
  distance (image_center o rad m rho) (circ_inverse_of q o rad)
  = image_radius o rad m rho.
Proof.
  intros Ho Hm Hq Hk Hd Hcap.
  pose proof (inverse_on_image_dot2 (rad := rad) Ho Hm Hq Hk Hd Hcap) as E.
  rewrite distance_sym. unfold distance. rewrite norm_dot2, E.
  fold (Rsqr (rad * rad * rho / circle_power o m rho)).
  rewrite sqrt_Rsqr_abs. unfold image_radius, Rdiv.
  rewrite Rabs_mult, Rabs_inv.
  f_equal. apply Rabs_right.
  pose proof (distance_nonneg q m) as Hrho. rewrite Hd in Hrho. nra.
Qed.

(** The images of the three sampled points span a triangle whose doubled
    area is [- 2 rad^4 rho^2 k / (U1 U2 U3)], with [k] the power of [o]
    and [U1], [U2], [U3] the squared distances of the samples from
    [o]. *)
Lemma image_samples_cross2 (ox oy mx my rad rho : R) :
  let o := mkVec3 ox oy 0 in
  let s1 := mkVec3 (mx + rho) my 0 in
  let s2 := mkVec3 mx (my + rho) 0 in
  let s3 := mkVec3 mx (my - rho) 0 in
  let img := fun s : Vec3 R =>
    vadd o (vscale (rad * rad / dot2 (vsub s o)) (vsub s o)) in
  dot2 (vsub s1 o) <> 0 -> dot2 (vsub s2 o) <> 0 ->
  dot2 (vsub s3 o) <> 0 ->
  cross2 (img s1) (img s2) (img s3)
  = - (2 * (rad * rad) * (rad * rad) * (rho * rho)
       * circle_power o (mkVec3 mx my 0) rho)
    / (dot2 (vsub s1 o) * dot2 (vsub s2 o) * dot2 (vsub s3 o)).
Proof.
  intros o s1 s2 s3 img H1 H2 H3.
  unfold img, cross2, circle_power, dot2, vadd, vscale, vsub, o, s1, s2, s3
    in *; to_R.
  field.
  repeat split; intros H0; [apply H3 | apply H2 | apply H1]; lra.
Qed.

Lemma image_radius_pos (o m : Vec3 R) (rad rho : R) :
  0 < rad -> 0 < rho -> circle_power o m rho <> 0 ->
  0 < image_radius o rad m rho.
Proof.
  intros Hr Hrho Hk. unfold image_radius.
  apply Rdiv_lt_0_compat; [|apply Rabs_pos_lt, Hk].
  apply Rmult_lt_0_compat; [nra|exact Hrho].
Qed.

(** The circle fitted by [trace_circle] is the image circle. *)
Lemma fitted_circle_image (st : Scene R) (r : R) (c : R * R) :
  let m := mkVec3 (fst c) (snd c) 0 in
  planar (origin st) -> 0 < RADIUS st -> 0 < r ->
  circle_power (origin st) m r <> 0 ->
  below_cap_on (origin st) (RADIUS st) m r ->
  fitted_circle st (mkCircle m r)
  = (image_center (origin st) (RADIUS st) m r,
     image_radius (origin st) (RADIUS st) m r).
Proof.
  intros m Ho Hrad Hr Hk Hbelow.
  destruct c as [mx my]. cbn [fst snd] in m.
  set (rad := RADIUS st) in *.
  destruct (origin st) as [ox oy oz] eqn:Eo.
  unfold planar in Ho. cbn [vz] in Ho. subst oz.
  set (o := mkVec3 ox oy 0) in *.
  set (s1 := mkVec3 (mx + r) my 0).
  set (s2 := mkVec3 mx (my + r) 0).
  set (s3 := mkVec3 mx (my - r) 0).
  assert (Hpts : inverted_circle_points st (mkCircle m r)
                 = [ circ_inverse_of s1 o rad; circ_inverse_of s2 o rad;
                     circ_inverse_of s3 o rad ]).
  { unfold inverted_circle_points. rewrite Eo. fold rad.
    cbn [circle_center circle_radius].
    repeat f_equal; apply vec3_eq;
      unfold vadd, vscale, RIGHT, UP, DOWN, m, s1, s2, s3; to_R; ring. }
  unfold fitted_circle. rewrite Hpts. cbn [nth].
  assert (Hon : forall s : Vec3 R,
            dot2 (vsub s m) = r * r -> distance s m = r).
  { intros s Hs. unfold distance. rewrite norm_dot2, Hs.
    apply sqrt_square. lra. }
  assert (Hd1 : distance s1 m = r)
    by (apply Hon; unfold dot2, vsub, s1, m; to_R; ring).
  assert (Hd2 : distance s2 m = r)
    by (apply Hon; unfold dot2, vsub, s2, m; to_R; ring).
  assert (Hd3 : distance s3 m = r)
    by (apply Hon; unfold dot2, vsub, s3, m; to_R; ring).
  assert (Hp1 : planar s1) by reflexivity.
  assert (Hp2 : planar s2) by reflexivity.
  assert (Hp3 : planar s3) by reflexivity.
  assert (Hpo : planar o) by reflexivity.
  assert (Hpm : planar m) by reflexivity.
  pose proof (Hbelow s1 Hp1 Hd1) as Hc1.
  pose proof (Hbelow s2 Hp2 Hd2) as Hc2.
  pose proof (Hbelow s3 Hp3 Hd3) as Hc3.
  pose proof (on_circle_neq_center Hk Hd1) as Hn1.
  pose proof (on_circle_neq_center Hk Hd2) as Hn2.
  pose proof (on_circle_neq_center Hk Hd3) as Hn3.
  pose proof (dot2_vsub_pos Hn1) as HU1.
  pose proof (dot2_vsub_pos Hn2) as HU2.
  pose proof (dot2_vsub_pos Hn3) as HU3.
  assert (Hnc : ~ collinear (circ_inverse_of s1 o rad)
                            (circ_inverse_of s2 o rad)
                            (circ_inverse_of s3 o rad)).
  { unfold collinear.
    rewrite (circ_inverse_of_uncapped Hn1 (raw_scale_le_cap Hn1 Hc1)).
    rewrite (circ_inverse_of_uncapped Hn2 (raw_scale_le_cap Hn2 Hc2)).
    rewrite (circ_inverse_of_uncapped Hn3 (raw_scale_le_cap Hn3 Hc3)).
    pose proof (@image_samples_cross2 ox oy mx my rad r) as Hx.
    cbv zeta in Hx. fold o s1 s2 s3 m in Hx.
    rewrite Hx by lra. clear Hx.
    unfold Rdiv. intros H0.
    apply Rmult_integral in H0. destruct H0 as [H0|H0].
    - apply Ropp_eq_0_compat in H0. rewrite Ropp_involutive in H0.
      apply Rmult_integral in H0. destruct H0 as [H0|H0]; [|apply Hk, H0].
      assert (0 < 2 * (rad * rad) * (rad * rad) * (r * r))
        by (repeat apply Rmult_lt_0_compat; lra).
      lra.
    - assert (Hprod : 0 < dot2 (vsub s1 o) * dot2 (vsub s2 o)
                          * dot2 (vsub s3 o))
        by (repeat apply Rmult_lt_0_compat; assumption).
      pose proof (Rinv_0_lt_compat _ Hprod). lra. }
  pose proof (inverse_on_image_circle (rad := rad) Hpo Hpm Hp1 Hk Hd1 Hc1)
    as Hi1.
  pose proof (inverse_on_image_circle (rad := rad) Hpo Hpm Hp2 Hk Hd2 Hc2)
    as Hi2.
  pose proof (inverse_on_image_circle (rad := rad) Hpo Hpm Hp3 Hk Hd3 Hc3)
    as Hi3.
  destruct (@circumcenter_unique
              (circ_inverse_of s1 o rad) (circ_inverse_of s2 o rad)
              (circ_inverse_of s3 o rad) (image_center o rad m r))
    as [Hc Hrr];
    try (apply circ_inverse_of_planar; assumption);
    try (apply image_center_planar; assumption);
    try exact Hnc; try (rewrite Hi1; symmetry; assumption).
  rewrite Hi1 in Hrr.
  destruct (define_circle _ _ _) as [center radius]. cbn [fst snd] in *.
  rewrite Hc, Hrr. reflexivity.
Qed.

(** X13: when the traced circle does not pass through the centre of the
    inversion circle and none of its points reaches the cap, the full
    circle that [trace_circle] leaves as the image curve is the image of
    the traced circle in closed form: its centre is
    [o + (R^2 / k) * (m - o)] and its radius [R^2 * r / |k|], with
    [k = |m - o|^2 - r^2]. *)
Theorem trace_circle_final_is_image (r : R) (c : R * R)
    (path : list (Vec3 R)) (st : Scene R) :
  let m := mkVec3 (fst c) (snd c) 0 in
  planar (origin st) -> 0 < RADIUS st -> 0 < r ->
  circle_power (origin st) m r <> 0 ->
  below_cap_on (origin st) (RADIUS st) m r ->
  inverted_arc (traced_final (trace_circle r c path st))
  = Some (MCircle (mkCircle (image_center (origin st) (RADIUS st) m r)
                            (image_radius (origin st) (RADIUS st) m r))).
Proof.
  intros m Ho Hrad Hr Hk Hbelow.
  rewrite trace_circle_unfold. cbv zeta.
  cbn [traced_final inverted_arc set_inverted_arc].
  rewrite !shifted_circle_R. fold m.
  pose proof (fitted_circle_image st c Ho Hrad Hr Hk Hbelow) as Hfit.
  cbv zeta in Hfit. fold m in Hfit. rewrite Hfit. cbn [fst snd].
  do 3 f_equal. apply vec3_eq; try reflexivity.
  symmetry. apply image_center_planar; [exact Ho | reflexivity].
Qed.

(** The first trace of the scene: the traced circle stays at distance at
    least [1/2] from the centre of the inversion circle. *)
Lemma first_trace_below_cap :
  below_cap_on (origin scene_at_first_trace) (RADIUS scene_at_first_trace)
               (mkVec3 (-2) 0 0) (1 / 2).
Proof.
  intros q Hq Hd. cbn [origin RADIUS scene_at_first_trace].
  set (o := mkVec3 (-3) 0 0). set (m := mkVec3 (-2) 0 0) in *.
  assert (Hom : distance o m = 1).
  { unfold distance. rewrite norm_dot2.
    replace (dot2 (vsub o m)) with (1 * 1)
      by (unfold dot2, vsub, o, m; to_R; ring).
    apply sqrt_square. lra. }
  pose proof (distance_triangle o q m) as Ht.
  rewrite Hom, Hd, (distance_sym o q) in Ht.
  assert (Hge : 1 / 2 <= distance q o) by lra.
  assert (Hsq : 1 / 4 <= distance q o * distance q o) by nra.
  unfold scale_cap. lra.
Qed.

Lemma first_trace_power :
  circle_power (origin scene_at_first_trace) (mkVec3 (-2) 0 0) (1 / 2) <> 0.
Proof.
  unfold circle_power, dot2, vsub. cbn [origin scene_at_first_trace]. to_R.
  lra.
Qed.

(** X13, witness: the first trace of the scene. *)
Lemma trace_circle_final_is_image_witness :
  let st := scene_at_first_trace in
  let m := mkVec3 (-2) 0 0 in
  (planar (origin st) /\ 0 < RADIUS st /\ 0 < 1 / 2 /\
   circle_power (origin st) m (1 / 2) <> 0 /\
   below_cap_on (origin st) (RADIUS st) m (1 / 2)) /\
  inverted_arc (traced_final (trace_circle (1 / 2) (-2, 0) [] st))
  = Some (MCircle (mkCircle (image_center (origin st) (RADIUS st) m (1 / 2))
                            (image_radius (origin st) (RADIUS st) m
                                          (1 / 2)))).
Proof.
  intros st m.
  assert (Ho : planar (origin st)) by reflexivity.
  assert (Hrad : 0 < RADIUS st) by (simpl; lra).
  assert (Hr : 0 < 1 / 2) by lra.
  split; [repeat split; try assumption;
          [exact first_trace_power | exact first_trace_below_cap]|].
  exact (@trace_circle_final_is_image (1 / 2) (-2, 0) [] st
           Ho Hrad Hr first_trace_power first_trace_below_cap).
Defined.

(** X14: under the same conditions, in every frame of the trace in which
    [A] is on the traced circle, [A'] lies on the circle of the arc and
    is the point at which the arc starts. *)
Theorem traced_arc_starts_at_A_prime (r : R) (c : R * R)
    (path : list (Vec3 R)) (st st' : Scene R) :
  let m := mkVec3 (fst c) (snd c) 0 in
  planar (origin st) -> 0 < RADIUS st -> 0 < r ->
  circle_power (origin st) m r <> 0 ->
  below_cap_on (origin st) (RADIUS st) m r ->
  In st' (traced_frames (trace_circle r c path st)) ->
  planar (A st') -> distance (A st') m = r ->
  exists arc : Arc R,
    inverted_arc st' = Some (MArc arc) /\
    distance (arc_center arc) (A_prime st') = arc_radius arc /\
    A_prime st'
    = offset_point (mkCircle (arc_center arc) (arc_radius arc))
                   (start_angle arc).
Proof.
  intros m Ho Hrad Hr Hk Hbelow Hin HpA HdA.
  rewrite trace_circle_unfold in Hin. cbv zeta in Hin.
  cbn [traced_frames] in Hin.
  pose proof (tracing_state_updater r c st) as Hu.
  rewrite shifted_circle_R in Hu. fold m in Hu.
  pose proof (fitted_circle_image st c Ho Hrad Hr Hk Hbelow) as Hfit.
  cbv zeta in Hfit. fold m in Hfit. rewrite Hfit in Hu. clear Hfit.
  pose proof (play_frames_traced path _ Hu) as Hall.
  rewrite Forall_forall in Hall. specialize (Hall st' Hin).
  destruct Hall as (_ & _ & _ & Hp & _ & Harc).
  cbn [origin RADIUS tracing_state set_arc_updater set_inverted_arc
       set_circle] in Hp.
  set (o := origin st) in *. set (rad := RADIUS st) in *.
  set (C := image_center o rad m r) in *.
  set (rho := image_radius o rad m r) in *.
  assert (Hpm : planar m) by reflexivity.
  pose proof (inverse_on_image_circle (rad := rad) Ho Hpm HpA Hk HdA
                (Hbelow _ HpA HdA)) as Hon.
  rewrite <- Hp in Hon. fold C rho in Hon.
  pose proof (image_radius_pos (o := o) (m := m) Hrad Hr Hk) as Hpos.
  fold rho in Hpos.
  assert (HpC : planar C) by (apply image_center_planar; assumption).
  assert (HpA' : planar (A_prime st'))
    by (rewrite Hp; apply circ_inverse_of_planar; assumption).
  eexists. split; [exact Harc|].
  cbn [arc_center arc_radius start_angle].
  split; [exact Hon|].
  assert (Hd : sqrt ((vx (A_prime st') - vx C) * (vx (A_prime st') - vx C)
                     + (vy (A_prime st') - vy C)
                       * (vy (A_prime st') - vy C)) = rho).
  { rewrite <- (distance_planar HpA' HpC), distance_sym. exact Hon. }
  assert (Hxy : vx (A_prime st') - vx C <> 0
                \/ vy (A_prime st') - vy C <> 0).
  { destruct (Req_dec (vx (A_prime st') - vx C) 0) as [Hx|Hx];
      [|left; exact Hx].
    destruct (Req_dec (vy (A_prime st') - vy C) 0) as [Hy|Hy];
      [|right; exact Hy].
    exfalso. rewrite Hx, Hy in Hd.
    replace (0 * 0 + 0 * 0) with 0 in Hd by ring.
    rewrite sqrt_0 in Hd. lra. }
  destruct (Ratan2_polar Hxy) as [Ex Ey]. rewrite Hd in Ex, Ey.
  unfold offset_point, circle_angle; to_R.
  cbn [circle_center circle_radius].
  unfold planar in HpC, HpA'.
  apply vec3_eq; cbn [vx vy vz]; lra.
Qed.

(** X14, witness: the first frame of the first trace of the scene, [A] at
    the rightmost point of the traced circle. *)
Lemma traced_arc_starts_at_A_prime_witness :
  let st := scene_at_first_trace in
  let m := mkVec3 (-2) 0 0 in
  let a := mkVec3 (-3 / 2) 0 0 in
  let tr := trace_circle (1 / 2) (-2, 0) [a] st in
  exists st' : Scene R,
    (In st' (traced_frames tr) /\ planar (A st') /\
     distance (A st') m = 1 / 2) /\
    exists arc : Arc R,
      inverted_arc st' = Some (MArc arc) /\
      distance (arc_center arc) (A_prime st') = arc_radius arc /\
      A_prime st'
      = offset_point (mkCircle (arc_center arc) (arc_radius arc))
                     (start_angle arc).
Proof.
  intros st m a tr.
  set (st' := advance_frame a (tracing_state (1 / 2) (-2, 0) st)).
  assert (Hin : In st' (traced_frames tr)).
  { unfold tr. rewrite trace_circle_unfold. left. reflexivity. }
  assert (Ha : A st' = a) by reflexivity.
  assert (HpA : planar (A st')) by reflexivity.
  assert (HdA : distance (A st') m = 1 / 2).
  { rewrite Ha. unfold distance. rewrite norm_dot2.
    replace (dot2 (vsub a m)) with ((1 / 2) * (1 / 2))
      by (unfold dot2, vsub, a, m; to_R; field).
    apply sqrt_square. lra. }
  assert (Ho : planar (origin st)) by reflexivity.
  assert (Hrad : 0 < RADIUS st) by (simpl; lra).
  assert (Hr : 0 < 1 / 2) by lra.
  exists st'. split; [repeat split; assumption|].
  exact (@traced_arc_starts_at_A_prime (1 / 2) (-2, 0) [a] st st'
           Ho Hrad Hr first_trace_power first_trace_below_cap
           Hin HpA HdA).
Defined.

(** ** Translations and the round trip of the polar angle *)

(** X17: fitting commutes with translations of the plane: for three points
    that are not collinear, moving all three by a vector of the plane
    moves the returned centre by that vector and leaves the radius as it
    is. *)
Theorem define_circle_translate (p1 p2 p3 t : Vec3 R) :
  planar t -> ~ collinear p1 p2 p3 ->
  define_circle (vadd p1 t) (vadd p2 t) (vadd p3 t)
  = (vadd (fst (define_circle p1 p2 p3)) t, snd (define_circle p1 p2 p3)).
Proof.
  intros Ht Hnc. pose proof (circle_denominator_pos Hnc) as Hs.
  unfold planar in Ht.
  unfold circle_denominator, sides2, sq in Hs; to_R.
  unfold define_circle, sq, vadd; to_R. cbn [fst snd vx vy vz].
  set (a := (vx p2 - vx p3) * (vx p2 - vx p3)
            + (vy p2 - vy p3) * (vy p2 - vy p3)) in *.
  set (b := (vx p3 - vx p1) * (vx p3 - vx p1)
            + (vy p3 - vy p1) * (vy p3 - vy p1)) in *.
  set (c := (vx p1 - vx p2) * (vx p1 - vx p2)
            + (vy p1 - vy p2) * (vy p1 - vy p2)) in *.
  replace ((vx p2 + vx t - (vx p3 + vx t)) * (vx p2 + vx t - (vx p3 + vx t))
           + (vy p2 + vy t - (vy p3 + vy t))
             * (vy p2 + vy t - (vy p3 + vy t))) with a
    by (unfold a; ring).
  replace ((vx p3 + vx t - (vx p1 + vx t)) * (vx p3 + vx t - (vx p1 + vx t))
           + (vy p3 + vy t - (vy p1 + vy t))
             * (vy p3 + vy t - (vy p1 + vy t))) with b
    by (unfold b; ring).
  replace ((vx p1 + vx t - (vx p2 + vx t)) * (vx p1 + vx t - (vx p2 + vx t))
           + (vy p1 + vy t - (vy p2 + vy t))
             * (vy p1 + vy t - (vy p2 + vy t))) with c
    by (unfold c; ring).
  f_equal. clearbody a b c.
  apply vec3_eq; cbn [vx vy vz]; [field; lra | field; lra | lra].
Qed.

(** X17, witness: the right triangle [(0,0)], [(1,0)], [(0,1)] moved
    three units to the left. *)
Lemma define_circle_translate_witness :
  let p1 := mkVec3 0 0 0 in
  let p2 := mkVec3 1 0 0 in
  let p3 := mkVec3 0 1 0 in
  let t := mkVec3 (-3) 0 0 in
  (planar t /\ ~ collinear p1 p2 p3) /\
  define_circle (vadd p1 t) (vadd p2 t) (vadd p3 t)
  = (vadd (fst (define_circle p1 p2 p3)) t, snd (define_circle p1 p2 p3)).
Proof.
  intros p1 p2 p3 t.
  assert (Ht : planar t) by reflexivity.
  assert (Hnc : ~ collinear p1 p2 p3).
  { unfold collinear, cross2, p1, p2, p3; simpl. lra. }
  split; [split; assumption|].
  exact (@define_circle_translate p1 p2 p3 t Ht Hnc).
Defined.

Lemma tan_minus_PI (x : R) : cos x <> 0 -> tan (x - PI) = tan x.
Proof.
  intros Hc. unfold tan.
  pose proof (neg_cos (x - PI)) as Hcos.
  pose proof (neg_sin (x - PI)) as Hsin.
  replace (x - PI + PI) with x in Hcos, Hsin by ring.
  assert (Ec : cos (x - PI) = - cos x) by lra.
  assert (Es : sin (x - PI) = - sin x) by lra.
  rewrite Ec, Es. field. exact Hc.
Qed.

Lemma tan_plus_PI (x : R) : cos x <> 0 -> tan (x + PI) = tan x.
Proof.
  intros Hc. unfold tan. rewrite neg_cos, neg_sin. field. exact Hc.
Qed.

(** The angle of the point at distance [rho > 0] in the direction
    [theta]. *)
Lemma Ratan2_of_polar (rho theta : R) :
  0 < rho -> - PI < theta <= PI ->
  Ratan2 (rho * sin theta) (rho * cos theta) = theta.
Proof.
  intros Hrho [Hlo Hhi]. pose proof PI_RGT_0 as Hpi.
  assert (Hq : cos theta <> 0 ->
               rho * sin theta / (rho * cos theta) = tan theta)
    by (intros Hc; unfold tan; field; split; lra).
  unfold Ratan2.
  destruct (Rlt_dec 0 (rho * cos theta)) as [Hx|Hx].
  - assert (Hc : 0 < cos theta) by nra.
    rewrite Hq by lra.
    destruct (Rle_lt_dec theta (- (PI / 2))) as [H1|H1].
    + exfalso.
      assert (cos (theta + PI) = - cos theta) by apply neg_cos.
      assert (0 <= cos (theta + PI)).
      { destruct (Req_dec theta (- (PI / 2))) as [E|E].
        - rewrite E. replace (- (PI / 2) + PI) with (PI / 2) by field.
          rewrite cos_PI2. lra.
        - apply Rlt_le, cos_gt_0; lra. }
      lra.
    + destruct (Rle_lt_dec (PI / 2) theta) as [H2|H2].
      * exfalso.
        destruct (Req_dec theta (PI / 2)) as [E|E].
        -- rewrite E, cos_PI2 in Hc. lra.
        -- assert (cos theta < 0) by (apply cos_lt_0; lra). lra.
      * apply atan_tan. lra.
  - destruct (Rlt_dec (rho * cos theta) 0) as [Hx'|Hx'].
    + assert (Hc : cos theta < 0) by nra.
      rewrite Hq by lra.
      assert (Hout : theta < - (PI / 2) \/ PI / 2 < theta).
      { destruct (Rlt_le_dec theta (- (PI / 2))) as [H1|H1];
          [left; exact H1|].
        destruct (Rlt_le_dec (PI / 2) theta) as [H2|H2];
          [right; exact H2|].
        exfalso.
        destruct (Req_dec theta (- (PI / 2))) as [E|E].
        - rewrite E, cos_neg, cos_PI2 in Hc. lra.
        - destruct (Req_dec theta (PI / 2)) as [E'|E'].
          + rewrite E', cos_PI2 in Hc. lra.
          + assert (0 < cos theta) by (apply cos_gt_0; lra). lra. }
      destruct (Rle_dec 0 (rho * sin theta)) as [Hy|Hy].
      * assert (Hs : 0 <= sin theta) by nra.
        destruct Hout as [H1|H1].
        -- exfalso.
           assert (sin theta < 0) by (apply sin_lt_0_var; lra). lra.
        -- assert (E : tan (theta - PI) = tan theta)
             by (apply tan_minus_PI; lra).
           rewrite <- E, atan_tan by lra. ring.
      * assert (Hs : sin theta < 0) by nra.
        destruct Hout as [H1|H1].
        -- assert (E : tan (theta + PI) = tan theta)
             by (apply tan_plus_PI; lra).
           rewrite <- E, atan_tan by lra. ring.
        -- exfalso.
           assert (0 <= sin theta) by (apply sin_ge_0; lra). lra.
    + assert (Hc : cos theta = 0) by nra.
      destruct (Rlt_dec 0 (rho * sin theta)) as [Hy|Hy].
      * assert (Hs : 0 < sin theta) by nra.
        destruct (Rtotal_order theta (PI / 2)) as [H1|[H1|H1]];
          [|exact (eq_sym H1)|]; exfalso.
        -- destruct (Rle_lt_dec theta (- (PI / 2))) as [H2|H2].
           ++ destruct (Rle_lt_dec theta 0) as [H3|H3].
              ** destruct (Req_dec theta 0) as [E|E].
                 --- rewrite E, sin_0 in Hs. lra.
                 --- assert (sin theta < 0) by (apply sin_lt_0_var; lra).
                     lra.
              ** lra.
           ++ assert (0 < cos theta) by (apply cos_gt_0; lra). lra.
        -- assert (cos theta < 0) by (apply cos_lt_0; lra). lra.
      * destruct (Rlt_dec (rho * sin theta) 0) as [Hy'|Hy'].
        -- assert (Hs : sin theta < 0) by nra.
           destruct (Rtotal_order theta (- (PI / 2))) as [H1|[H1|H1]];
             [|exact (eq_sym H1)|]; exfalso.
           ++ assert (cos (theta + PI) = - cos theta) by apply neg_cos.
              assert (0 < cos (theta + PI)) by (apply cos_gt_0; lra).
              lra.
           ++ destruct (Rlt_le_dec theta (PI / 2)) as [H2|H2].
              ** assert (0 < cos theta) by (apply cos_gt_0; lra). lra.
              ** assert (0 <= sin theta) by (apply sin_ge_0; lra). lra.
        -- exfalso. assert (Hs : sin theta = 0) by nra.
           pose proof (sin2_cos2 theta) as H1. unfold Rsqr in H1.
           rewrite Hs, Hc in H1. lra.
Qed.

(** X18: the polar angle undoes the polar construction: of the point at
    distance [rho > 0] from [center] in the direction [theta], with
    [- PI < theta <= PI], [circle_angle] gives [theta] back. *)
Theorem circle_angle_offset_point (center : Vec3 R) (rho theta : R) :
  0 < rho -> - PI < theta <= PI ->
  circle_angle (offset_point (mkCircle center rho) theta) center = theta.
Proof.
  intros Hrho Htheta.
  unfold circle_angle, offset_point; to_R.
  cbn [circle_center circle_radius vx vy].
  replace (vy center + rho * sin theta - vy center) with (rho * sin theta)
    by ring.
  replace (vx center + rho * cos theta - vx center) with (rho * cos theta)
    by ring.
  apply Ratan2_of_polar; assumption.
Qed.

(** X18, witness: the direction [PI], at distance 2 from the origin. *)
Lemma circle_angle_offset_point_witness :
  let center := mkVec3 0 0 0 in
  (0 < 2 /\ - PI < PI <= PI) /\
  circle_angle (offset_point (mkCircle center 2) PI) center = PI.
Proof.
  intros center. pose proof PI_RGT_0 as Hpi.
  assert (Hrho : 0 < 2) by lra.
  assert (Htheta : - PI < PI <= PI) by lra.
  split; [split; assumption|].
  exact (@circle_angle_offset_point center 2 PI Hrho Htheta).
Defined.


(** ** The displayed objects after the first trace *)

(** The first trace of the scene, with the single frame [A = (-2, 0.5)]
    and no curve object created before: the call creates the traced
    circle, the arc and the full circle, in this order; when it returns,
    the scene displays object 1, the arc, and neither the traced circle
    (object 0) nor the full circle (object 2), to which
    [self.inverted_arc] is bound. *)
Example first_trace_displays_arc :
  let sg := mkStage scene_at_first_trace [] [] None None None in
  let shown :=
    trace_circle_shown (1 / 2) (-2, 0) [mkVec3 (-2) (1 / 2) 0] sg in
  mobjects shown = [1%nat] /\
  circle_id shown = Some 0%nat /\
  inverted_arc_id shown = Some 2%nat /\
  updater_id shown = None /\
  match objects shown with
  | [MCircle _; MArc _; MCircle _] => True
  | _ => False
  end.
Proof.
  intros sg shown.
  assert (H1 : mobjects shown = [1%nat]) by (vm_compute; reflexivity).
  assert (H2 : circle_id shown = Some 0%nat) by (vm_compute; reflexivity).
  assert (H3 : inverted_arc_id shown = Some 2%nat)
    by (vm_compute; reflexivity).
  assert (H4 : updater_id shown = None) by (vm_compute; reflexivity).
  split; [exact H1|]. split; [exact H2|]. split; [exact H3|].
  split; [exact H4|]. vm_compute. exact I.
Qed.
End Exact.

(** * Properties in binary64 arithmetic *)

Module Binary64.
Import PrimFloat SpecFloat FloatOps FloatAxioms.
Local Open Scope float_scope.

(** ** What the axioms of the primitive floats say of the few operations
    that meet a zero in [circ_inverse_of] *)

Lemma SFeqb_refl_finite (x : spec_float) : sf_finite x -> SFeqb x x = true.
Proof.
  intros [s|s m e]; unfold SFeqb; simpl; [reflexivity|].
  rewrite Z.compare_refl.
  change (PosDef.Pos.compare_cont Eq m m) with (Pos.compare m m).
  rewrite Pos.compare_refl. destruct s; reflexivity.
Qed.

Lemma is_finite_spec (x : float) :
  PrimFloat.is_finite x = true <-> sf_finite (Prim2SF x).
Proof.
  unfold PrimFloat.is_finite, PrimFloat.is_nan, PrimFloat.is_infinity.
  rewrite !FloatAxioms.eqb_spec, abs_spec.
  change (Prim2SF infinity) with (S754_infinity false).
  split.
  - destruct (Prim2SF x) as [s|s| |s m e]; intros Hf;
      [ apply sf_finite_zero
      | destruct s; cbv in Hf; discriminate
      | cbv in Hf; discriminate
      | apply sf_finite_num ].
  - intros Hf. rewrite (SFeqb_refl_finite Hf).
    destruct Hf; reflexivity.
Qed.

(** [x - x] is [+0] for every finite [x]. *)
Lemma sub_diag_finite (x : float) :
  PrimFloat.is_finite x = true -> x - x = 0.
Proof.
  intros Hf. apply is_finite_spec in Hf. apply Prim2SF_inj.
  rewrite sub_spec. change (Prim2SF 0) with (S754_zero false).
  unfold SF64sub. destruct Hf as [s|s m e]; simpl.
  - destruct s; reflexivity.
  - rewrite Z.min_id. unfold shl_align. rewrite !Z.sub_diag. reflexivity.
Qed.

(** A positive number, finite or not, over [+0] is [+infinity]. *)
Lemma div_pos_zero (q : float) : (0 <? q) = true -> q / 0 = infinity.
Proof.
  intros Hq. rewrite ltb_spec in Hq. apply Prim2SF_inj.
  rewrite div_spec. change (Prim2SF 0) with (S754_zero false) in *.
  change (Prim2SF infinity) with (S754_infinity false).
  unfold SF64div, SFltb in *.
  destruct (Prim2SF q) as [s|s| |s m e]; simpl in *;
    try discriminate; destruct s; try discriminate; reflexivity.
Qed.

(** Adding [+0] to a finite [x] gives a finite number equal to [x]. *)
Lemma add_zero_finite (x : float) :
  PrimFloat.is_finite x = true ->
  (x + 0 =? x) = true /\ PrimFloat.is_finite (x + 0) = true.
Proof.
  intros Hf. apply is_finite_spec in Hf.
  rewrite is_finite_spec, FloatAxioms.eqb_spec, add_spec.
  change (Prim2SF 0) with (S754_zero false). unfold SF64add.
  destruct Hf as [s|s m e]; simpl.
  - destruct s; split; try reflexivity; constructor.
  - split; [|constructor].
    apply SFeqb_refl_finite. constructor.
Qed.

Lemma vfinite_components (c : Vec3 float) :
  vfinite c = true ->
  PrimFloat.is_finite (vx c) = true /\ PrimFloat.is_finite (vy c) = true
  /\ PrimFloat.is_finite (vz c) = true.
Proof.
  unfold vfinite. rewrite !andb_true_iff. tauto.
Qed.

(** ** The scenario of the scene: radius 2 around the origin *)

Example inverse_of_1_0 :
  circ_inverse_of (mkVec3 1 0 0) (mkVec3 0 0 0) 2 = mkVec3 4 0 0.
Proof. reflexivity. Qed.

Example inverse_of_2_0 :
  circ_inverse_of (mkVec3 2 0 0) (mkVec3 0 0 0) 2 = mkVec3 2 0 0.
Proof. reflexivity. Qed.

Example inverse_of_4_0 :
  circ_inverse_of (mkVec3 4 0 0) (mkVec3 0 0 0) 2 = mkVec3 1 0 0.
Proof. reflexivity. Qed.

(** ** The inversion of the centre itself *)

Lemma vsub_diag_finite (c : Vec3 float) :
  vfinite c = true -> vsub c c = mkVec3 0 0 0.
Proof.
  intros Hc. apply vfinite_components in Hc. destruct Hc as (Hx & Hy & Hz).
  unfold vsub. cbn [ssub float_scalar].
  rewrite (@sub_diag_finite _ Hx), (@sub_diag_finite _ Hy),
    (@sub_diag_finite _ Hz).
  reflexivity.
Qed.

Lemma raw_scale_at_center (c : Vec3 float) (r : float) :
  vfinite c = true -> (0 <? r * r) = true -> raw_scale c c r = infinity.
Proof.
  intros Hc Hr. unfold raw_scale. rewrite (@vsub_diag_finite _ Hc).
  change (norm (mkVec3 0 0 0)) with 0.
  unfold sq. cbn [smul sdiv float_scalar].
  rewrite (@div_pos_zero _ Hr). reflexivity.
Qed.

(** C6 (amended): when [p] is the centre [c] itself, with finite
    coordinates, and [r * r] is positive in binary64, nothing fails: the
    scale factor is [+infinity] before the cap and [2^63], the float64
    nearest to 9223372036854775807, after it; the capped factor multiplies
    the zero vector, so the result is finite and equal to the centre [c]
    itself. *)
Theorem circ_inverse_of_center (c : Vec3 float) (r : float) :
  vfinite c = true -> (0 <? r * r) = true ->
  raw_scale c c r = infinity /\
  capped_scale c c r = of_Z scale_cap /\
  of_Z scale_cap = 9223372036854775808 /\
  circ_inverse_of c c r = vadd c (mkVec3 0 0 0) /\
  vfinite (circ_inverse_of c c r) = true /\
  veqb (circ_inverse_of c c r) c = true.
Proof.
  intros Hc Hr.
  pose proof (@raw_scale_at_center _ _ Hc Hr) as Hraw.
  assert (Hcap : capped_scale c c r = of_Z scale_cap).
  { unfold capped_scale. rewrite Hraw. reflexivity. }
  assert (Hres : circ_inverse_of c c r = vadd c (mkVec3 0 0 0)).
  { change (circ_inverse_of c c r)
      with (vadd c (vscale (capped_scale c c r) (vsub c c))).
    rewrite Hcap, (@vsub_diag_finite _ Hc). reflexivity. }
  apply vfinite_components in Hc. destruct Hc as (Hx & Hy & Hz).
  destruct (@add_zero_finite _ Hx) as [Ex Fx].
  destruct (@add_zero_finite _ Hy) as [Ey Fy].
  destruct (@add_zero_finite _ Hz) as [Ez Fz].
  repeat split; try assumption; try reflexivity.
  - rewrite Hres. unfold vfinite, vadd. cbn [vx vy vz sadd float_scalar].
    rewrite Fx, Fy, Fz. reflexivity.
  - rewrite Hres. unfold veqb, vadd. cbn [vx vy vz sadd float_scalar].
    rewrite Ex, Ey, Ez. reflexivity.
Qed.

(** C6, witness: the centre of the scene's inversion circle, radius 2. *)
Lemma circ_inverse_of_center_witness :
  let c := mkVec3 0 0 0 in
  (vfinite c = true /\ (0 <? 2 * 2) = true) /\
  raw_scale c c 2 = infinity /\
  capped_scale c c 2 = of_Z scale_cap /\
  of_Z scale_cap = 9223372036854775808 /\
  circ_inverse_of c c 2 = vadd c (mkVec3 0 0 0) /\
  vfinite (circ_inverse_of c c 2) = true /\
  veqb (circ_inverse_of c c 2) c = true.
Proof.
  intros c. split; [split; reflexivity|].
  apply (@circ_inverse_of_center c 2); reflexivity.
Defined.

(** C6, counterexample: inverting the centre [(3, 4)] of a circle of
    radius 2 gives back [(3, 4)]: the result is at distance 0 from the
    centre, inside the circle, not a point far away. *)
Lemma circ_inverse_of_center_not_far :
  let c := mkVec3 3 4 0 in
  circ_inverse_of c c 2 = c /\
  distance c (circ_inverse_of c c 2) = 0 /\
  (distance c (circ_inverse_of c c 2) <? 2) = true.
Proof. vm_compute. repeat split. Qed.

(** ** The circle through three collinear points *)

(** C2, counterexample: for the collinear points [(0,0)], [(1,0)], [(2,0)]
    the denominator is zero and [define_circle] returns, as for any other
    triple, a centre and a radius: the centre has NaN coordinates and the
    radius is [+infinity]. *)
Lemma define_circle_collinear_returns :
  let p1 := mkVec3 0 0 0 in
  let p2 := mkVec3 1 0 0 in
  let p3 := mkVec3 2 0 0 in
  circle_denominator p1 p2 p3 = 0 /\
  define_circle p1 p2 p3 = (mkVec3 nan nan 0, infinity).
Proof. vm_compute. split; reflexivity. Qed.

Lemma is_zero_spec (s : float) :
  PrimFloat.is_zero s = true -> exists b : bool, Prim2SF s = S754_zero b.
Proof.
  unfold PrimFloat.is_zero. rewrite FloatAxioms.eqb_spec.
  change (Prim2SF 0) with (S754_zero false).
  destruct (Prim2SF s) as [b|b| |b m e]; intros Hz.
  - exists b. reflexivity.
  - destruct b; cbv in Hz; discriminate.
  - cbv in Hz. discriminate.
  - destruct b; cbv in Hz; discriminate.
Qed.

(** Whatever the numerator, a quotient by a zero is an infinity or a
    NaN. *)
Lemma div_zero_not_finite (n s : float) :
  PrimFloat.is_zero s = true -> PrimFloat.is_finite (n / s) = false.
Proof.
  intros Hz. destruct (@is_zero_spec s Hz) as [b Hs].
  destruct (PrimFloat.is_finite (n / s)) eqn:Hf; [|reflexivity].
  apply is_finite_spec in Hf. rewrite div_spec, Hs in Hf.
  unfold SF64div in Hf.
  destruct (Prim2SF n) as [b'|b'| |b' m e]; simpl in Hf; inversion Hf.
Qed.

(** C2 (amended): [define_circle] has no check of its denominator [s] and
    no error to report.  In exact arithmetic [s] is zero exactly for
    collinear points; in binary64, whenever the computed [s] is zero, the
    function still returns a centre and a radius, and the two coordinates
    of that centre are not finite (each is an infinity or a NaN). *)
Theorem define_circle_zero_denominator :
  (forall q1 q2 q3 : Vec3 R,
     collinear q1 q2 q3 <-> circle_denominator q1 q2 q3 = 0%R) /\
  (forall p1 p2 p3 : Vec3 float,
     PrimFloat.is_zero (circle_denominator p1 p2 p3) = true ->
     PrimFloat.is_finite (vx (fst (define_circle p1 p2 p3))) = false /\
     PrimFloat.is_finite (vy (fst (define_circle p1 p2 p3))) = false).
Proof.
  split.
  - intros q1 q2 q3. symmetry. apply Exact.circle_denominator_zero_iff.
  - intros p1 p2 p3 Hz.
    split; apply div_zero_not_finite; exact Hz.
Qed.

(** C2, witness: the collinear points [(0,0)], [(1,0)], [(2,0)]. *)
Lemma define_circle_zero_denominator_witness :
  let p1 := mkVec3 0 0 0 in
  let p2 := mkVec3 1 0 0 in
  let p3 := mkVec3 2 0 0 in
  PrimFloat.is_zero (circle_denominator p1 p2 p3) = true /\
  PrimFloat.is_finite (vx (fst (define_circle p1 p2 p3))) = false /\
  PrimFloat.is_finite (vy (fst (define_circle p1 p2 p3))) = false.
Proof.
  intros p1 p2 p3.
  assert (Hz : PrimFloat.is_zero (circle_denominator p1 p2 p3) = true)
    by reflexivity.
  split; [exact Hz|].
  exact (proj2 define_circle_zero_denominator p1 p2 p3 Hz).
Defined.

(** ** Further properties of the cap in binary64 *)

Lemma is_nan_spec (x : float) :
  PrimFloat.is_nan x = true <-> Prim2SF x = S754_nan.
Proof.
  unfold PrimFloat.is_nan. rewrite FloatAxioms.eqb_spec. split.
  - destruct (Prim2SF x) as [s|s| |s m e] eqn:E; intros Hn;
      try reflexivity; exfalso.
    + destruct s; cbv in Hn; discriminate.
    + destruct s; cbv in Hn; discriminate.
    + rewrite (SFeqb_refl_finite (sf_finite_num s m e)) in Hn.
      discriminate.
  - intros E. rewrite E. reflexivity.
Qed.

(** What is not above a positive finite bound is below or equal to it, or
    is a NaN. *)
Lemma not_above_finite (k s : float) (m : positive) (e : Z) :
  Prim2SF k = S754_finite false m e ->
  (k <? s) = false ->
  PrimFloat.is_nan s = true \/ (s <=? k) = true.
Proof.
  intros Ek Hlt. rewrite ltb_spec, Ek in Hlt.
  rewrite is_nan_spec, leb_spec, Ek.
  unfold SFltb, SFleb in *.
  destruct (Prim2SF s) as [b|b| |b m' e']; simpl in *.
  - right. reflexivity.
  - destruct b; [right; reflexivity | discriminate].
  - left. reflexivity.
  - right. destruct b; [reflexivity|].
    rewrite (Z.compare_antisym e e').
    destruct (e ?= e')%Z; simpl in *; try reflexivity; try discriminate.
    change (PosDef.Pos.compare_cont Eq m' m) with (Pos.compare m' m).
    change (PosDef.Pos.compare_cont Eq m m') with (Pos.compare m m') in Hlt.
    rewrite (Pos.compare_antisym m m').
    destruct (Pos.compare m m'); simpl in *; try reflexivity;
      discriminate.
Qed.

Lemma cap_float_spec :
  Prim2SF (of_Z scale_cap) = S754_finite false 4503599627370496 11.
Proof. reflexivity. Qed.

(** X15: whatever the point, the centre and the radius, the scale factor
    after the cap is a NaN or a number not above [2^63]; in particular it
    is never [+infinity]. *)
Theorem capped_scale_bounded (p c : Vec3 float) (r : float) :
  (PrimFloat.is_nan (capped_scale p c r) = true \/
   (capped_scale p c r <=? of_Z scale_cap) = true) /\
  capped_scale p c r <> infinity.
Proof.
  assert (Hb : PrimFloat.is_nan (capped_scale p c r) = true \/
               (capped_scale p c r <=? of_Z scale_cap) = true).
  { unfold capped_scale, py_min. cbn [sltb float_scalar].
    destruct (of_Z scale_cap <? raw_scale p c r) eqn:Hlt.
    - right. reflexivity.
    - exact (@not_above_finite _ _ _ _ cap_float_spec Hlt). }
  split; [exact Hb|].
  intros Hinf. rewrite Hinf in Hb.
  destruct Hb as [Hb|Hb]; cbv in Hb; discriminate.
Qed.

(** A sum with a NaN is a NaN. *)
Lemma add_nan_r (x : float) : x + nan = nan.
Proof.
  apply Prim2SF_inj. rewrite add_spec.
  change (Prim2SF nan) with S754_nan. unfold SF64add.
  destruct (Prim2SF x) as [s|s| |s m e]; reflexivity.
Qed.

(** Zero over zero is a NaN. *)
Lemma div_zero_zero (q : float) : PrimFloat.is_zero q = true -> q / 0 = nan.
Proof.
  intros Hz. destruct (@is_zero_spec q Hz) as [b Hq].
  apply Prim2SF_inj. rewrite div_spec, Hq.
  change (Prim2SF 0) with (S754_zero false). reflexivity.
Qed.

(** X16: when [p] is the centre [c] itself, with finite coordinates, and
    [r * r] is zero in binary64 (the radius is zero, or so small that its
    square underflows), the cap does not help: the scale factor is a NaN
    before and after it, and every coordinate of the result is a NaN. *)
Theorem circ_inverse_of_center_zero_radius (c : Vec3 float) (r : float) :
  vfinite c = true -> PrimFloat.is_zero (r * r) = true ->
  raw_scale c c r = nan /\
  capped_scale c c r = nan /\
  circ_inverse_of c c r = mkVec3 nan nan nan.
Proof.
  intros Hc Hr.
  assert (Hraw : raw_scale c c r = nan).
  { unfold raw_scale. rewrite (@vsub_diag_finite _ Hc).
    change (norm (mkVec3 0 0 0)) with 0.
    unfold sq. cbn [smul sdiv float_scalar].
    rewrite (@div_zero_zero _ Hr). reflexivity. }
  assert (Hcap : capped_scale c c r = nan).
  { unfold capped_scale. rewrite Hraw. reflexivity. }
  repeat split; try assumption.
  change (circ_inverse_of c c r)
    with (vadd c (vscale (capped_scale c c r) (vsub c c))).
  rewrite Hcap, (@vsub_diag_finite _ Hc).
  change (vscale nan (mkVec3 0 0 0)) with (mkVec3 nan nan nan).
  unfold vadd. cbn [vx vy vz sadd float_scalar].
  rewrite !add_nan_r. reflexivity.
Qed.

(** X16, witness: the centre [(3, 4)] and the radius 0. *)
Lemma circ_inverse_of_center_zero_radius_witness :
  let c := mkVec3 3 4 0 in
  (vfinite c = true /\ PrimFloat.is_zero (0 * 0) = true) /\
  raw_scale c c 0 = nan /\
  capped_scale c c 0 = nan /\
  circ_inverse_of c c 0 = mkVec3 nan nan nan.
Proof.
  intros c. split; [split; reflexivity|].
  apply (@circ_inverse_of_center_zero_radius c 0); reflexivity.
Defined.

(** ** The circle through three nearly collinear points *)

Lemma float_to_R_0 : float_to_R 0 = 0%R.
Proof. reflexivity. Qed.

Lemma float_to_R_1 : float_to_R 1 = 1%R.
Proof.
  unfold float_to_R.
  change (Prim2SF 1) with (S754_finite false 4503599627370496 (-52)).
  unfold SF2R. cbn [Z.leb Z.compare Z.opp].
  change (2 ^ 52)%Z with 4503599627370496%Z. lra.
Qed.

Lemma float_to_R_2 : float_to_R 2 = 2%R.
Proof.
  unfold float_to_R.
  change (Prim2SF 2) with (S754_finite false 4503599627370496 (-51)).
  unfold SF2R. cbn [Z.leb Z.compare Z.opp].
  change (2 ^ 51)%Z with 2251799813685248%Z. lra.
Qed.

Lemma float_to_R_1e9 :
  float_to_R 0x1.12e0be826d695p-30
  = (4835703278458517 / 4835703278458516698824704)%R.
Proof.
  unfold float_to_R.
  change (Prim2SF 0x1.12e0be826d695p-30)
    with (S754_finite false 4835703278458517 (-82)).
  unfold SF2R. cbn [Z.leb Z.compare Z.opp].
  change (2 ^ 82)%Z with 4835703278458516698824704%Z. reflexivity.
Qed.

(** C3, counterexample: the points [(0,0)], [(1, y)], [(2,0)] with [y] the
    float64 nearest to [1e-9] are in the plane and not collinear, yet in
    binary64 the denominator comes out as zero and [define_circle]
    returns the centre [(NaN, -infinity, 0)] and the radius [+infinity]:
    the distance of that centre from the first point is a NaN, not the
    radius. *)
Lemma define_circle_near_collinear :
  let p1 := mkVec3 0 0 0 in
  let p2 := mkVec3 1 0x1.12e0be826d695p-30 0 in
  let p3 := mkVec3 2 0 0 in
  (planar (vec_to_R p1) /\ planar (vec_to_R p2) /\ planar (vec_to_R p3) /\
   ~ collinear (vec_to_R p1) (vec_to_R p2) (vec_to_R p3)) /\
  define_circle p1 p2 p3 = (mkVec3 nan neg_infinity 0, infinity) /\
  PrimFloat.is_nan (distance (fst (define_circle p1 p2 p3)) p1) = true /\
  (distance (fst (define_circle p1 p2 p3)) p1
   =? snd (define_circle p1 p2 p3)) = false.
Proof.
  intros p1 p2 p3. split.
  - unfold planar, collinear, cross2, vec_to_R, p1, p2, p3.
    cbn [vx vy vz].
    rewrite float_to_R_0, float_to_R_1, float_to_R_2, float_to_R_1e9.
    repeat split; try reflexivity. lra.
  - vm_compute. repeat split.
Qed.
End Binary64.
